(** * Stochastic optimizers: simulated annealing and the bee-colony script

    A shallow embedding of [algorithms/simulated_annealling.py] (class [SA])
    and of [practice/artificial_bee_colony/abc_2.py], with the properties of
    the specification stated and settled against them.

    Conventions of the embedding.
    - Python and numpy floats are modelled by exact real numbers [R]; the
      special results numpy produces when it divides by zero ([inf], [-inf],
      [nan]) are kept apart in [npfloat], and the complex number Python
      returns for a negative base raised to a fractional power in [pynum].
      Rounding of binary64 arithmetic is outside the model.
    - The random generators are an oracle [rng : nat -> R]: [rng k] is the
      k-th unit sample the program draws, and every [uniform lo hi] is
      [lo + (hi - lo) * u] for the next sample [u], as numpy and the [random]
      module compute it.  The wall clock is an oracle [clock : nat -> R], the
      k-th reading of [time.time()].
    - Exceptions are values of [exn]; a [while] loop is a function with fuel
      that returns [None] when the fuel is used up before the loop ends. *)

From Stdlib Require Import Reals Lra Lia List Arith ZArith Permutation.
Import ListNotations.
Open Scope R_scope.

(** ** Python values shared by both programs *)

Inductive exn : Type :=
| ValueError
| ZeroDivisionError
| TypeError
| AttributeError.

Inductive res (A : Type) : Type :=
| Ok (a : A)
| Raise (e : exn).
Arguments Ok {A} a.
Arguments Raise {A} e.

Definition bind {A B : Type} (m : res A) (k : A -> res B) : res B :=
  match m with
  | Ok a => k a
  | Raise e => Raise e
  end.

Notation "x <- m ;; k" := (bind m (fun x => k))
  (at level 61, m at next level, right associativity).

(** A numpy float64: a finite value, or one of the three special results. *)
Inductive npfloat : Type :=
| Fin (r : R)
| PInf
| NInf
| NaN.

(** A Python number as [**] can return it. *)
Inductive pynum : Type :=
| PFloat (r : R)
| PComplex.

(** [a / b] on numpy floats: dividing by zero warns and yields [inf], [-inf]
    or [nan]; it does not raise. *)
Definition np_div (a b : R) : npfloat :=
  if Req_dec_T b 0 then
    if Rlt_dec 0 a then PInf
    else if Rlt_dec a 0 then NInf
    else NaN
  else Fin (a / b).

Definition np_exp (x : npfloat) : npfloat :=
  match x with
  | Fin r => Fin (exp r)
  | PInf => PInf
  | NInf => Fin 0
  | NaN => NaN
  end.

(** [r < x] and [r > x] for a finite [r]: every comparison with [nan] is
    false. *)
Definition lt_np (r : R) (x : npfloat) : bool :=
  match x with
  | Fin y => if Rlt_dec r y then true else false
  | PInf => true
  | NInf => false
  | NaN => false
  end.

Definition gt_np (r : R) (x : npfloat) : bool :=
  match x with
  | Fin y => if Rlt_dec y r then true else false
  | PInf => false
  | NInf => true
  | NaN => false
  end.

(** [a / b] on Python floats raises on a zero divisor. *)
Definition py_div (a b : R) : res R :=
  if Req_dec_T b 0 then Raise ZeroDivisionError else Ok (a / b).

(** [b ** e] on Python numbers: zero to a negative power raises, a negative
    base to a power that is not a whole number gives a complex number. *)
Definition py_pow (b e : R) : res pynum :=
  if Rlt_dec 0 b then Ok (PFloat (Rpower b e))
  else if Req_dec_T b 0 then
    if Rlt_dec e 0 then Raise ZeroDivisionError
    else if Req_dec_T e 0 then Ok (PFloat 1)
    else Ok (PFloat 0)
  else if Req_dec_T (IZR (Int_part e)) e
       then Ok (PFloat (powerRZ b (Int_part e)))
       else Ok PComplex.

(** [min(l)] and [max(l)] of a Python list; the empty list raises. *)
Definition py_min (l : list R) : res R :=
  match l with
  | [] => Raise ValueError
  | x :: t => Ok (fold_left Rmin t x)
  end.

Definition py_max (l : list R) : res R :=
  match l with
  | [] => Raise ValueError
  | x :: t => Ok (fold_left Rmax t x)
  end.

(** The trace property of the specification: every entry is at most the one
    before it. *)
Fixpoint non_increasing (l : list R) : Prop :=
  match l with
  | a :: (b :: _) as t => b <= a /\ non_increasing t
  | _ => True
  end.

(** ** The annealing optimizer, [class SA] *)

Module Annealing.

(** The attributes [__init__] stores. *)
Record SA : Type := mkSA {
  xlb : R; xub : R;
  ylb : R; yub : R;
  Ti0 : R; Tf0 : R; T0 : R;
  eps0 : pynum;
  maxIter : R;
  maxTime : R
}.

(** The attributes of a run: those [_initialize] sets, and the candidate
    [_neighbourhood_search] stores, absent until its first call. *)
Record state : Type := mkState {
  best_solution : R * R;
  best_value : R;
  Ti : R; Tf : R;
  T : pynum;
  eps : pynum;
  new_solution : option (R * R);
  new_value : option R
}.

Definition __init__ (xBounds yBounds : list R) (Ti Tf maxIter maxTime : R)
  : res SA :=
  xlb <- py_min xBounds ;;
  xub <- py_max xBounds ;;
  ylb <- py_min yBounds ;;
  yub <- py_max yBounds ;;
  q <- py_div Tf Ti ;;
  e <- py_pow maxIter (-1) ;;
  p <- match e with
       | PFloat e' => py_pow q e'
       | PComplex => Ok PComplex
       end ;;
  Ok (mkSA xlb xub ylb yub Ti Tf Ti
        match p with PFloat p' => PFloat (1 - p') | PComplex => PComplex end
        maxIter maxTime).

Section Run.

Variable f : R -> R -> R.
Variable rng : nat -> R.
Variable clock : nat -> R.

(** [np.random.uniform(lo, hi)], drawing sample number [d]. *)
Definition uniform (lo hi : R) (d : nat) : R * nat :=
  (lo + (hi - lo) * rng d, S d).

Definition _initialize (self : SA) (d : nat) : state * nat :=
  let (x, d1) := uniform (xlb self) (xub self) d in
  let (y, d2) := uniform (ylb self) (yub self) d1 in
  (mkState (x, y) (f x y) (Ti0 self) (Tf0 self) (PFloat (Ti0 self))
     (eps0 self) None None, d2).

Definition _neighbourhood_search (self : SA) (st : state) (d : nat)
  : state * nat :=
  let (x, d1) := uniform (xlb self) (xub self) d in
  let (y, d2) := uniform (ylb self) (yub self) d1 in
  (mkState (best_solution st) (best_value st) (Ti st) (Tf st) (T st) (eps st)
     (Some (x, y)) (Some (f x y)), d2).

Definition accept (st : state) (s : R * R) (v : R) : state :=
  mkState s v (Ti st) (Tf st) (T st) (eps st) (new_solution st) (new_value st).

(** [_find_best].  A complex temperature is not followed into the
    Metropolis test: the embedding stops there with [TypeError], where
    numpy goes on to order the float [r] against a [complex128] power
    without raising.  Only the run by time can come here with a complex
    temperature (the run by iteration raises at its loop test first), and
    no statement below rests on the outcome of that branch. *)
Definition _find_best (st : state) (d : nat) : res (state * nat) :=
  match new_solution st, new_value st with
  | Some s, Some v =>
      if Rlt_dec v (best_value st) then Ok (accept st s v, d)
      else
        let r := rng d in
        match T st with
        | PFloat t =>
            if lt_np r (np_exp (np_div (best_value st - v) t))
            then Ok (accept st s v, S d)
            else Ok (st, S d)
        | PComplex => Raise TypeError
        end
  | _, _ => Raise AttributeError
  end.

Definition _cooling_schedule (st : state) : state :=
  mkState (best_solution st) (best_value st) (Ti st) (Tf st)
    match T st, eps st with
    | PFloat t, PFloat e => PFloat (t * (1 - e))
    | _, _ => PComplex
    end
    (eps st) (new_solution st) (new_value st).

(** One pass through the body both loops share. *)
Definition iteration (self : SA) (st : state) (d : nat) : res (state * nat) :=
  let (st1, d1) := _neighbourhood_search self st d in
  r <- _find_best st1 d1 ;;
  Ok (_cooling_schedule (fst r), snd r).

(** What [algorithm] hands back, with the object's final attributes and the
    iteration counter it prints. *)
Record result : Type := mkResult {
  best_values : list R;
  nIter : nat;
  final : state;
  drawn : nat
}.

(** [while self.T > self.Tf]: comparing a complex number raises. *)
Fixpoint algorithm_loop (fuel : nat) (self : SA) (st : state) (d : nat)
  (vals : list R) (n : nat) : option (res result) :=
  match fuel with
  | O => None
  | S k =>
      match T st with
      | PComplex => Some (Raise TypeError)
      | PFloat t =>
          if Rlt_dec (Tf st) t then
            match iteration self st d with
            | Raise e => Some (Raise e)
            | Ok (st', d') =>
                algorithm_loop k self st' d' (vals ++ [best_value st']) (S n)
            end
          else Some (Ok (mkResult vals n st d))
      end
  end.

Definition algorithm (fuel : nat) (self : SA) : option (res result) :=
  let (st, d) := _initialize self 0 in
  algorithm_loop fuel self st d [best_value st] 0.

Record timed_result : Type := mkTimed {
  t_values : list R;
  t_times : list R;
  t_nIter : nat;
  t_final : state
}.

(** [while time_elapsed < self.maxTime]; [c] counts the clock readings. *)
Fixpoint time_loop (fuel : nat) (self : SA) (st : state) (d c : nat)
  (time_start time_elapsed : R) (vals times : list R) (n : nat)
  : option (res timed_result) :=
  match fuel with
  | O => None
  | S k =>
      if Rlt_dec time_elapsed (maxTime self) then
        match iteration self st d with
        | Raise e => Some (Raise e)
        | Ok (st', d') =>
            let time_current := clock c in
            let time_elapsed' := time_current - time_start in
            time_loop k self st' d' (S c) time_start time_elapsed'
              (vals ++ [best_value st']) (times ++ [time_elapsed']) (S n)
        end
      else Some (Ok (mkTimed vals times n st))
  end.

Definition time_algorithm (fuel : nat) (self : SA)
  : option (res timed_result) :=
  let (st, d) := _initialize self 0 in
  time_loop fuel self st d 1 (clock 0) 0 [best_value st] [] 0.

End Run.

(** The search box, and the points of a run state that must lie in it. *)
Definition in_box (self : SA) (p : R * R) : Prop :=
  xlb self <= fst p <= xub self /\ ylb self <= snd p <= yub self.

(** Every point the run state holds lies in the box: the incumbent, and the
    last candidate once one was drawn. *)
Definition box_inv (self : SA) (st : state) : Prop :=
  in_box self (best_solution st) /\
  forall s, new_solution st = Some s -> in_box self s.

(** The cached value is the objective at the incumbent. *)
Definition coherent (f : R -> R -> R) (st : state) : Prop :=
  best_value st = f (fst (best_solution st)) (snd (best_solution st)).

(** A value of the objective at a point of the box. *)
Definition box_value (f : R -> R -> R) (self : SA) (v : R) : Prop :=
  exists p, in_box self p /\ v = f (fst p) (snd p).

End Annealing.

(** ** The colony optimizer, the script [abc_2.py] *)

Module Colony.

(** The objective of the script; calling it sets the globals [a] and [b]. *)
Definition a : R := 20.
Definition b : R := 100.

Definition f (x y : R) : R := (a - x) ^ 2 + b * (y - x ^ 2) ^ 2.

(** One key of the three dictionaries [employed_bee_militia],
    [employed_bee_solutions] and [abandon_food]: they are created with the
    same keys, in the same order, and no key is ever added or removed, so an
    entry of the list stands for one name. *)
Record bee : Type := mkBee {
  militia : R * R;
  solution : R;
  abandon_food : nat
}.

(** The module-level variables of the search loop. *)
Record hive : Type := mkHive {
  bees : list bee;
  best_value : R;
  best_sol : R * R;
  old_best_value : R;
  end_counter : nat;
  iter_count : nat
}.

(** [min(employed_bee_solutions, key=employed_bee_solutions.get)]: the first
    entry whose value is minimal; an empty dictionary raises. *)
Definition min_sol (l : list bee) : res bee :=
  match l with
  | [] => Raise ValueError
  | x :: t =>
      Ok (fold_left
            (fun m y => if Rlt_dec (solution y) (solution m) then y else m)
            t x)
  end.

(** [sum(sol for sol in employed_bee_solutions.values())] *)
Definition sum_solutions (l : list bee) : R :=
  fold_left (fun s y => s + solution y) l 0.

(** The dictionary [sol_prob], in key order. *)
Definition sol_prob (l : list bee) : list npfloat :=
  map (fun y => np_div (solution y) (sum_solutions l)) l.

(** The replace-or-count step that ends the first two phases. *)
Definition replace_or_count (y : bee) (new_solution : R * R) : bee :=
  let new_sol_value := f (fst new_solution) (snd new_solution) in
  if Rlt_dec new_sol_value (solution y)
  then mkBee new_solution new_sol_value (abandon_food y)
  else mkBee (militia y) (solution y) (S (abandon_food y)).

Section Run.

(** The script sets [beehive_population = 100]. *)
Variable beehive_population : nat.
Variable rng : nat -> R.
(** [irng k]: the value of draw number [k] when it is a [random.randint]. *)
Variable irng : nat -> nat.

Definition uniform (lo hi : R) (d : nat) : R * nat :=
  (lo + (hi - lo) * rng d, S d).

Definition randint (d : nat) : nat * nat := (irng d, S d).

(** [range(int(beehive_population/2))] *)
Definition colony_size : nat := Nat.div beehive_population 2.

(** Creation of one employed bee: the value is taken at [(x, x)], both
    arguments being the first coordinate. *)
Definition new_bee (d : nat) : bee * nat :=
  let (p0, d1) := uniform 0 10 d in
  let (p1, d2) := uniform 0 10 d1 in
  (mkBee (p0, p1) (f p0 p0) 0, d2).

Fixpoint new_bees (n : nat) (d : nat) : list bee * nat :=
  match n with
  | O => ([], d)
  | S k =>
      let (y, d1) := new_bee d in
      let (t, d2) := new_bees k d1 in
      (y :: t, d2)
  end.

Definition start (d : nat) : hive * nat :=
  let (l, d1) := new_bees colony_size d in
  (mkHive l 10 (0, 0) 11 0 1, d1).

(** Employed phase, one bee. *)
Definition employed_step (y : bee) (d : nat) : bee * nat :=
  let (s0, d1) := uniform 0 (a ^ 2) d in
  let (s1, d2) := uniform 0 (a ^ 2) d1 in
  let (r1, d3) := uniform (-1) 1 d2 in
  let (r2, d4) := uniform (1 / 10000) 1 d3 in
  let n0 := fst (militia y) + r1 * r2 * (fst (militia y) - s0) in
  let (r1', d5) := uniform (-1) 1 d4 in
  let (r2', d6) := uniform (1 / 10000) 1 d5 in
  let n1 := snd (militia y) + r1' * r2' * (snd (militia y) - s1) in
  (replace_or_count y (n0, n1), d6).

Fixpoint employed_phase (l : list bee) (d : nat) : list bee * nat :=
  match l with
  | [] => ([], d)
  | y :: t =>
      let (y', d1) := employed_step y d in
      let (t', d2) := employed_phase t d1 in
      (y' :: t', d2)
  end.

(** Is the bee picked by the draw [r1]?  [if r1 > sol_prob[name]] *)
Definition selected (r1 : R) (p : npfloat) : bool := gt_np r1 p.

(** Onlooker phase, one bee with its entry of [sol_prob]. *)
Definition onlooker_step (y : bee) (p : npfloat) (d : nat) : bee * nat :=
  let (r1, d1) := uniform 0 (1 / (INR beehive_population / 2)) d in
  if selected r1 p then
    let (s0, d2) := uniform 0 (snd (militia y)) d1 in
    let (s1, d3) := uniform 0 (snd (militia y)) d2 in
    let (q1, d4) := uniform (-1) 1 d3 in
    let (q2, d5) := uniform 0 1 d4 in
    let (q3, d6) := randint d5 in
    let n0 := fst (militia y) + q1 * q2 ^ q3 * (fst (militia y) - s0) in
    let (q1', d7) := uniform (-1) 1 d6 in
    let (q2', d8) := uniform 0 1 d7 in
    let (q3', d9) := randint d8 in
    let n1 := snd (militia y) + q1' * q2' ^ q3' * (snd (militia y) - s1) in
    (replace_or_count y (n0, n1), d9)
  else (y, d1).

Fixpoint onlooker_phase (l : list bee) (ps : list npfloat) (d : nat)
  : list bee * nat :=
  match l, ps with
  | y :: t, p :: ps' =>
      let (y', d1) := onlooker_step y p d in
      let (t', d2) := onlooker_phase t ps' d1 in
      (y' :: t', d2)
  | _, _ => (l, d)
  end.

(** The candidate a scout builds around the entry [m]. *)
Definition scout_candidate (m : bee) (d : nat) : (R * R) * nat :=
  let (s0, d1) := uniform 0 (a ^ 2) d in
  let (s1, d2) := uniform 0 (a ^ 2) d1 in
  let (r2, d3) := uniform (-1) 1 d2 in
  let n0 := fst (militia m) + r2 * (fst (militia m) - s0) in
  let (r2', d4) := uniform (-1) 1 d3 in
  let n1 := snd (militia m) + r2' * (snd (militia m) - s1) in
  ((n0, n1), d4).

Fixpoint set_nth (i : nat) (y : bee) (l : list bee) {struct l} : list bee :=
  match l, i with
  | [], _ => []
  | _ :: t, O => y :: t
  | x :: t, S j => x :: set_nth j y t
  end.

(** Scout phase, the key number [i]: the minimum is looked up in the
    dictionaries as they are when this key is reached. *)
Definition scout_step (l : list bee) (i : nat) (d : nat)
  : res (list bee * nat) :=
  match nth_error l i with
  | None => Ok (l, d)
  | Some y =>
      if Nat.ltb 100 (abandon_food y) then
        m <- min_sol l ;;
        let (c, d1) := scout_candidate m d in
        Ok (set_nth i (mkBee c (f (fst c) (snd c)) 0) l, d1)
      else Ok (l, d)
  end.

Fixpoint scout_loop (k i : nat) (l : list bee) (d : nat)
  : res (list bee * nat) :=
  match k with
  | O => Ok (l, d)
  | S k' =>
      r <- scout_step l i d ;;
      scout_loop k' (S i) (fst r) (snd r)
  end.

Definition scout_phase (l : list bee) (d : nat) : res (list bee * nat) :=
  scout_loop (length l) 0 l d.

(** The lines after the three phases: the best of the iteration, the
    counter of quiet iterations and the iteration counter.  [rel_diff] is
    only printed and is left out. *)
Definition bookkeeping (h : hive) (l : list bee) : res hive :=
  m <- min_sol l ;;
  let '(old, sol, val) :=
    if Rlt_dec (solution m) (best_value h)
    then (best_value h, militia m, solution m)
    else (old_best_value h, best_sol h, best_value h) in
  let abs_diff := old - val in
  let counter :=
    if Rlt_dec val (9 / 1000) then
      if Rlt_dec abs_diff (1 / 100) then S (end_counter h) else O
    else O in
  Ok (mkHive l val sol old counter (S (iter_count h))).

(** The body of [while True], up to the test that leaves the loop. *)
Definition iteration (h : hive) (d : nat) : res (hive * nat) :=
  let (l1, d1) := employed_phase (bees h) d in
  let (l2, d2) := onlooker_phase l1 (sol_prob l1) d1 in
  r <- scout_phase l2 d2 ;;
  h' <- bookkeeping h (fst r) ;;
  Ok (h', snd r).

(** [while True: ... if end_counter == 10: break] *)
Fixpoint loop (fuel : nat) (h : hive) (d : nat) : option (res (hive * nat)) :=
  match fuel with
  | O => None
  | S k =>
      match iteration h d with
      | Raise e => Some (Raise e)
      | Ok (h', d') =>
          if Nat.eqb (end_counter h') 10 then Some (Ok (h', d'))
          else loop k h' d'
      end
  end.

Definition script (fuel : nat) : option (res (hive * nat)) :=
  let (h, d) := start 0 in loop fuel h d.

(** The state after [k] passes through the loop body, when none raised. *)
Fixpoint after (k : nat) (h : hive) (d : nat) : res (hive * nat) :=
  match k with
  | O => Ok (h, d)
  | S k' => r <- iteration h d ;; after k' (fst r) (snd r)
  end.

(** The global best at the start and after each of the first [k] passes,
    as far as none raises. *)
Fixpoint global_bests (k : nat) (h : hive) (d : nat) : list R :=
  best_value h ::
  match k with
  | O => []
  | S k' =>
      match iteration h d with
      | Ok (h', d') => global_bests k' h' d'
      | Raise _ => []
      end
  end.

End Run.

(** Predicates of the proofs: a value that is not negative; a bee that sits
    at [(5, 5)] with the value the objective has there; a hive of such bees
    whose global best is still the initial [10]. *)
Definition nonneg (y : bee) : Prop := 0 <= solution y.

Definition stuck (y : bee) : Prop :=
  fst (militia y) = 5 /\ snd (militia y) = 5 /\ solution y = 40225.

Definition stuck_hive (h : hive) : Prop :=
  Forall stuck (bees h) /\ bees h <> [] /\ best_value h = 10.

(** What the specification asks of the weights when the sum is zero or
    negative, for a computation that cannot raise: the weights of a uniform
    selection, one finite number for every bee. *)
Definition zero_sum_handled (l : list bee) : Prop :=
  sum_solutions l <= 0 ->
  exists w : R, sol_prob l = map (fun _ : bee => Fin w) l.

(** What the replace-or-count step does to one bee: the value does not go
    up, the counter does not go down, and exactly one of the two moves. *)
Definition kept_or_improved (y y' : bee) : Prop :=
  (solution y' < solution y /\ abandon_food y' = abandon_food y) \/
  (solution y' = solution y /\ militia y' = militia y /\
   abandon_food y' = S (abandon_food y)).

(** A bee whose counter is not above the limit of the scouts. *)
Definition rested (y : bee) : Prop := (abandon_food y <= 100)%nat.

(** The invariant of the three variables of the best: the best before is
    above the best, the best is at most the initial [10], and while it is
    [10] the best point is still the initial [(0, 0)]. *)
Definition books_kept (h : hive) : Prop :=
  best_value h < old_best_value h /\ best_value h <= 10 /\
  (best_value h = 10 -> best_sol h = (0, 0)).

End Colony.

(** ** The practice script [sa_1.py] *)

Module Practice.

Definition f (x y : R) : R :=
  let a := 1 in
  let b := 100 in
  (a - x) ^ 2 + b * (y - x ^ 2) ^ 2.

Definition lb : R := -5.
Definition ub : R := 5.

Definition Ti : R := 100.
Definition Tf : R := 1 / 10.

Definition max_iter : R := 1000000.

(** [eps = 1 - (Tf/Ti)**(max_iter**-1)], on positive constants. *)
Definition eps : R := 1 - Rpower (Tf / Ti) (Rpower max_iter (-1)).

(** The variables the loop of the script updates. *)
Record state : Type := mkState {
  best_solution : R * R;
  best_value : R;
  T : R;
  niter : nat
}.

Section Run.

Variable rng : nat -> R.

Definition uniform (lo hi : R) (d : nat) : R * nat :=
  (lo + (hi - lo) * rng d, S d).

(** The lines before the loop. *)
Definition start (d : nat) : state * nat :=
  let (x, d1) := uniform lb ub d in
  let (y, d2) := uniform lb ub d1 in
  (mkState (x, y) (f x y) Ti 0, d2).

(** The body of the loop. *)
Definition body (st : state) (d : nat) : state * nat :=
  let (x, d1) := uniform lb ub d in
  let (y, d2) := uniform lb ub d1 in
  let new_value := f x y in
  let (found, d3) :=
    if Rlt_dec new_value (best_value st) then ((x, y, new_value), d2)
    else
      let r := rng d2 in
      if lt_np r (np_exp (np_div (best_value st - new_value) (T st)))
      then ((x, y, new_value), S d2)
      else ((best_solution st, best_value st), S d2) in
  (mkState (fst found) (snd found) (T st * (1 - eps)) (S (niter st)), d3).

(** [while T > Tf] *)
Fixpoint loop (fuel : nat) (st : state) (d : nat) : option (state * nat) :=
  match fuel with
  | O => None
  | S k =>
      if Rlt_dec Tf (T st) then
        let (st', d') := body st d in loop k st' d'
      else Some (st, d)
  end.

Definition script (fuel : nat) : option (state * nat) :=
  let (st, d) := start 0 in loop fuel st d.

End Run.

End Practice.


(** ** The annealing runs of the driver [main.py] *)

Module Driver.

Definition xBounds : list R := [-5; 5].
Definition yBounds : list R := [-5; 5].



End Driver.

(** ** Inputs of the worked runs *)

Definition ex_f (x y : R) : R := x + y.

(** Draws number 2 and 4 are [1/2] and [1/4], every other one is [0]. *)
Definition ex_rng (k : nat) : R :=
  match k with
  | 2%nat => 1 / 2
  | 4%nat => 1 / 4
  | _ => 0
  end.

(** A clock that advances by one second per reading. *)
Definition ex_clock (k : nat) : R := INR k.

(** The object [SA([0, 1], [1, 0], Ti=1, Tf=0.1, maxIter=1, maxTime=1)]. *)
Definition ex_self : Annealing.SA :=
  Annealing.mkSA 0 1 0 1 1 (1 / 10) 1 (PFloat (9 / 10)) 1 1.

(** Every unit sample is [1/2]; every [randint] is [0]. *)
Definition ex_half (k : nat) : R := 1 / 2.
Definition ex_irng (k : nat) : nat := 0%nat.

(** The first sample is [0], the others are [1/2]. *)
Definition ex_rng5 (k : nat) : R :=
  match k with
  | O => 0
  | _ => 1 / 2
  end.

(** The first four samples are [0], the others are [1/2]. *)
Definition ex_rng8 (k : nat) : R :=
  if Nat.ltb k 4 then 0 else 1 / 2.

(** Two bees at the minimum [(20, 400)] of the objective, both worth [0]. *)
Definition ex_zero : list Colony.bee :=
  [Colony.mkBee (20, 400) 0 0; Colony.mkBee (20, 400) 0 0].

(** A hive whose best bee sits at the minimum, recorded as the global best,
    next to a bee at [(19, 361)] worth [1]; both have gone 101 tries without
    an improvement. *)
Definition ex_A : Colony.bee := Colony.mkBee (20, 400) 0 101.
Definition ex_B : Colony.bee := Colony.mkBee (19, 361) 1 101.
Definition ex_hive : Colony.hive :=
  Colony.mkHive [ex_A; ex_B] 0 (20, 400) 1 0 102.

(** A hive of one bee at the minimum, nine quiet iterations behind it. *)
Definition ex_quiet : Colony.hive :=
  Colony.mkHive [Colony.mkBee (20, 400) 0 0] 0 (20, 400) (1 / 200) 9 50.

(** A run state whose candidate ties the incumbent, and one at temperature
    zero whose candidate is worse. *)
Definition ex_tied : Annealing.state :=
  Annealing.mkState (0, 0) 0 1 (1 / 10) (PFloat 1) (PFloat (9 / 10))
    (Some (1 / 2, - (1 / 2))) (Some 0).


(** The population of the script's size in which 48 bees sit at the minimum
    and two bees are worth [9] and [16]. *)
Definition ex_b9 : Colony.bee := Colony.mkBee (17, 289) 9 0.
Definition ex_b16 : Colony.bee := Colony.mkBee (16, 256) 16 0.
Definition ex_fifty : list Colony.bee :=
  repeat (Colony.mkBee (20, 400) 0 0) 48 ++ [ex_b9; ex_b16].

(** ** Properties of the annealing optimizer *)

Import Annealing.


Section AnnealingFacts.

Variable f : R -> R -> R.
Variable rng : nat -> R.
Variable clock : nat -> R.

Lemma find_best_keeps (st st' : state) (d d' : nat) :
  _find_best rng st d = Ok (st', d') ->
  T st' = T st /\ eps st' = eps st /\ Tf st' = Tf st /\
  new_solution st' = new_solution st /\
  (best_solution st' = best_solution st \/
   Some (best_solution st') = new_solution st).
Proof.
  unfold _find_best.
  destruct (new_solution st) as [s|] eqn:Es; [|discriminate].
  destruct (new_value st) as [v|]; [|discriminate].
  destruct (Rlt_dec v (best_value st)).
  - intros H; inversion H; subst; cbn. rewrite Es. repeat split; auto.
  - destruct (T st) eqn:ET; [|discriminate].
    destruct (lt_np _ _); intros H; inversion H; subst; cbn;
      rewrite ?Es, ?ET; repeat split; auto.
Qed.

(** An iteration whose temperature is a real number does not raise; it
    multiplies the temperature by [1 - eps]. *)
Lemma iteration_cools (self : SA) (st : state) (d : nat) (t e : R) :
  T st = PFloat t -> eps st = PFloat e ->
  exists st' d',
    iteration f rng self st d = Ok (st', d') /\
    T st' = PFloat (t * (1 - e)) /\ eps st' = PFloat e /\ Tf st' = Tf st.
Proof.
  intros HT He. unfold iteration, _neighbourhood_search, uniform.
  match goal with |- context [_find_best rng ?s ?k] =>
    destruct (_find_best rng s k) as [[st2 d2]|x] eqn:E end.
  - apply find_best_keeps in E. cbn in E.
    destruct E as (E1 & E2 & E3 & _).
    exists (_cooling_schedule st2), d2. cbn.
    rewrite E1, E2, E3, HT, He. auto.
  - exfalso. unfold _find_best in E. cbn in E. rewrite HT in E.
    destruct (Rlt_dec _ _); [discriminate|].
    destruct (lt_np _ _); discriminate.
Qed.



End AnnealingFacts.



(** *** The search box *)


Lemma fold_Rmin_le (t : list R) : forall x, fold_left Rmin t x <= x.
Proof.
  induction t as [|y t IH]; intros x; cbn; [lra|].
  eapply Rle_trans; [apply IH | apply Rmin_l].
Qed.

Lemma fold_Rmax_ge (t : list R) : forall x, x <= fold_left Rmax t x.
Proof.
  induction t as [|y t IH]; intros x; cbn; [lra|].
  eapply Rle_trans; [apply (Rmax_l x y) | apply IH].
Qed.

Lemma py_min_le_max (l : list R) (lo hi : R) :
  py_min l = Ok lo -> py_max l = Ok hi -> lo <= hi.
Proof.
  destruct l as [|x t]; cbn; [discriminate|].
  intros H1 H2; inversion H1; inversion H2; subst.
  eapply Rle_trans; [apply fold_Rmin_le | apply fold_Rmax_ge].
Qed.

Lemma uniform_in_range (lo hi u : R) :
  lo <= hi -> 0 <= u < 1 -> lo <= lo + (hi - lo) * u <= hi.
Proof. intros H [H0 H1]. split; nra. Qed.

(** What a successful call of the constructor stored. *)
Lemma init_fields (xBounds yBounds : list R) (Ti Tf maxIter maxTime : R)
  (self : SA) :
  __init__ xBounds yBounds Ti Tf maxIter maxTime = Ok self ->
  py_min xBounds = Ok (xlb self) /\ py_max xBounds = Ok (xub self) /\
  py_min yBounds = Ok (ylb self) /\ py_max yBounds = Ok (yub self) /\
  Ti0 self = Ti /\ Tf0 self = Tf.
Proof.
  unfold __init__.
  destruct (py_min xBounds) as [a1|]; [|discriminate].
  destruct (py_max xBounds) as [a2|]; [|discriminate].
  destruct (py_min yBounds) as [a3|]; [|discriminate].
  destruct (py_max yBounds) as [a4|]; [|discriminate].
  cbn [bind].
  destruct (py_div Tf Ti) as [q|]; [|discriminate]. cbn [bind].
  destruct (py_pow maxIter (-1)) as [e|]; [|discriminate]. cbn [bind].
  destruct (match e with PFloat e' => py_pow q e' | PComplex => Ok PComplex end)
    as [p|]; [|discriminate].
  cbn [bind]. intros H. inversion H; subst; cbn. repeat split; reflexivity.
Qed.

Section Box.

Variable f : R -> R -> R.
Variable rng : nat -> R.
Variable clock : nat -> R.
Variable self : SA.

Hypothesis unit_samples : forall k, 0 <= rng k < 1.
Hypothesis x_ordered : xlb self <= xub self.
Hypothesis y_ordered : ylb self <= yub self.

Lemma initialize_in_box (d : nat) :
  box_inv self (fst (_initialize f rng self d)).
Proof.
  unfold _initialize, uniform, box_inv, in_box. cbn. split.
  - split; apply uniform_in_range; auto.
  - discriminate.
Qed.

Lemma iteration_in_box (st st' : state) (d d' : nat) :
  box_inv self st -> iteration f rng self st d = Ok (st', d') ->
  box_inv self st'.
Proof.
  intros [Hb _]. unfold iteration, _neighbourhood_search, uniform.
  match goal with |- context [_find_best rng ?s ?k] =>
    destruct (_find_best rng s k) as [[st2 d2]|x] eqn:E end;
    cbn [bind]; [|discriminate].
  intros H. inversion H; subst. clear H.
  apply find_best_keeps in E. cbn in E.
  destruct E as (_ & _ & _ & En & Eb).
  assert (Hc : in_box self
                 (xlb self + (xub self - xlb self) * rng d,
                  ylb self + (yub self - ylb self) * rng (S d))).
  { split; cbn; apply uniform_in_range; auto. }
  unfold box_inv. cbn. rewrite En. split.
  - destruct Eb as [Eb|Eb]; [now rewrite Eb|].
    injection Eb as Eb'. rewrite Eb'. exact Hc.
  - intros s Hs. injection Hs as Hs. rewrite <- Hs. exact Hc.
Qed.

Lemma algorithm_loop_in_box (fuel : nat) :
  forall st d vals n r,
    box_inv self st ->
    algorithm_loop f rng fuel self st d vals n = Some (Ok r) ->
    box_inv self (final r).
Proof.
  induction fuel as [|k IH]; intros st d vals n r Hb;
    cbn [algorithm_loop]; [discriminate|].
  destruct (T st); [|discriminate].
  destruct (Rlt_dec _ _).
  - destruct (iteration f rng self st d) as [[st' d']|x] eqn:E; [|discriminate].
    apply IH. eapply iteration_in_box; eauto.
  - intros H. inversion H; subst. exact Hb.
Qed.

Lemma time_loop_in_box (fuel : nat) :
  forall st d c t0 te vals times n r,
    box_inv self st ->
    time_loop f rng clock fuel self st d c t0 te vals times n = Some (Ok r) ->
    box_inv self (t_final r).
Proof.
  induction fuel as [|k IH]; intros st d c t0 te vals times n r Hb;
    cbn [time_loop]; [discriminate|].
  destruct (Rlt_dec _ _).
  - destruct (iteration f rng self st d) as [[st' d']|x] eqn:E; [|discriminate].
    apply IH. eapply iteration_in_box; eauto.
  - intros H. inversion H; subst. exact Hb.
Qed.

End Box.

(** C10.  With the box taken as [min] and [max] of the bounds the caller
    gave, in whatever order, the starting point, every candidate and the
    incumbent stay inside it: at the start, across every iteration, and in
    the state both run modes end with. *)
Theorem candidates_in_bounds (f : R -> R -> R) (rng clock : nat -> R)
  (xBounds yBounds : list R) (Ti Tf maxIter maxTime : R) (self : SA) :
  __init__ xBounds yBounds Ti Tf maxIter maxTime = Ok self ->
  (forall k, 0 <= rng k < 1) ->
  py_min xBounds = Ok (xlb self) /\ py_max xBounds = Ok (xub self) /\
  py_min yBounds = Ok (ylb self) /\ py_max yBounds = Ok (yub self) /\
  box_inv self (fst (_initialize f rng self 0)) /\
  (forall st d st' d',
      box_inv self st -> iteration f rng self st d = Ok (st', d') ->
      box_inv self st') /\
  (forall fuel r,
      algorithm f rng fuel self = Some (Ok r) -> box_inv self (final r)) /\
  (forall fuel r,
      time_algorithm f rng clock fuel self = Some (Ok r) ->
      box_inv self (t_final r)).
Proof.
  intros Hi Hu.
  destruct (init_fields _ _ _ _ _ _ _ Hi) as (X1 & X2 & Y1 & Y2 & _).
  assert (Hx := py_min_le_max _ _ _ X1 X2).
  assert (Hy := py_min_le_max _ _ _ Y1 Y2).
  repeat (split; [assumption|]).
  split; [now apply initialize_in_box|].
  split; [intros; eapply iteration_in_box; eauto|].
  split.
  - intros fuel r. unfold algorithm.
    destruct (_initialize f rng self 0) as [st d] eqn:E.
    apply algorithm_loop_in_box; auto.
    replace st with (fst (_initialize f rng self 0)) by now rewrite E.
    now apply initialize_in_box.
  - intros fuel r. unfold time_algorithm.
    destruct (_initialize f rng self 0) as [st d] eqn:E.
    apply time_loop_in_box; auto.
    replace st with (fst (_initialize f rng self 0)) by now rewrite E.
    now apply initialize_in_box.
Qed.

(** *** The cooling schedule *)

Lemma Rpower_minus_one (m : R) : 0 < m -> Rpower m (-1) = / m.
Proof.
  intros H. replace (-1) with (Ropp 1) by lra.
  now rewrite Rpower_Ropp, Rpower_1.
Qed.

(** The constructor on positive temperatures and a positive budget. *)
Lemma init_positive (x : R) (xt : list R) (y : R) (yt : list R)
  (Ti Tf maxIter maxTime : R) :
  0 < Ti -> 0 < Tf -> 0 < maxIter ->
  __init__ (x :: xt) (y :: yt) Ti Tf maxIter maxTime =
  Ok (mkSA (fold_left Rmin xt x) (fold_left Rmax xt x)
        (fold_left Rmin yt y) (fold_left Rmax yt y) Ti Tf Ti
        (PFloat (1 - Rpower (Tf / Ti) (/ maxIter))) maxIter maxTime).
Proof.
  intros Hi Hf Hm. unfold __init__, py_div, py_pow. cbn [py_min py_max bind].
  destruct (Req_dec_T Ti 0); [lra|]. cbn [bind].
  destruct (Rlt_dec 0 maxIter); [|lra]. cbn [bind].
  assert (0 < Tf / Ti) by (apply Rdiv_lt_0_compat; lra).
  destruct (Rlt_dec 0 (Tf / Ti)); [|lra]. cbn [bind].
  now rewrite Rpower_minus_one.
Qed.

Lemma div_lt_one (a b : R) : 0 < b -> (a * / b < 1 <-> a < b).
Proof.
  intros Hb. assert (H : a = a * / b * b) by (field; lra).
  generalize dependent (a * / b). intros x H. split; intros; nra.
Qed.




Section Cooling.

Variable f : R -> R -> R.
Variable rng : nat -> R.
Variable self : SA.


End Cooling.


(** *** The constructor checks nothing *)



(** *** Worked runs *)

Lemma ex_init :
  __init__ [0; 1] [1; 0] 1 (1 / 10) 1 1 = Ok ex_self.
Proof.
  rewrite init_positive by lra. unfold ex_self. cbn [fold_left].
  rewrite (Rmin_left 0 1), (Rmax_right 0 1) by lra.
  rewrite (Rmin_right 1 0), (Rmax_left 1 0) by lra.
  replace (/ 1) with 1 by lra.
  rewrite Rpower_1 by lra.
  do 3 f_equal. lra.
Qed.

Lemma exp_above_quarter (x : R) : -1 <= x -> 1 / 4 < exp x.
Proof.
  intros Hx.
  assert (H1 : exp (-1) <= exp x).
  { destruct (Req_dec_T x (-1)) as [->|Hn]; [lra|].
    left. apply exp_increasing. lra. }
  assert (H3 := exp_le_3).
  assert (Hp := exp_pos 1).
  assert (He : exp (-1) = / exp 1).
  { replace (-1) with (Ropp 1) by lra. apply exp_Ropp. }
  assert (Hq : 1 / 4 < / exp 1).
  { replace (1 / 4) with (/ 4) by lra. apply Rinv_lt_contravar; nra. }
  lra.
Qed.

(** The run of [algorithm] on [ex_self]: the start is worth [0], the single
    candidate is worth [1/2] and passes the Metropolis test, and one cooling
    brings the temperature down to [Tf]. *)
Lemma ex_algorithm :
  exists r,
    algorithm ex_f ex_rng 2 ex_self = Some (Ok r) /\
    nIter r = 1%nat /\
    exists v0 v1, best_values r = [v0; v1] /\ v0 = 0 /\ v1 = 1 / 2.
Proof.
  unfold algorithm, _initialize, uniform, ex_self.
  cbn [algorithm_loop xlb xub ylb yub Ti0 Tf0 eps0 T Tf best_value].
  destruct (Rlt_dec (1 / 10) 1) as [_|]; [|lra].
  unfold iteration, _neighbourhood_search, uniform, _find_best.
  cbn [xlb xub ylb yub new_solution new_value best_value T bind].
  unfold ex_f, ex_rng.
  match goal with |- context [Rlt_dec ?a ?b] =>
    destruct (Rlt_dec a b) as [|_]; [lra|] end.
  unfold np_div. destruct (Req_dec_T 1 0) as [|_]; [lra|].
  cbn [np_exp lt_np].
  match goal with |- context [Rlt_dec ?a (exp ?b)] =>
    destruct (Rlt_dec a (exp b)) as [_|Hn];
      [|exfalso; apply Hn, exp_above_quarter; lra] end.
  cbn.
  match goal with |- context [Rlt_dec ?a ?b] =>
    destruct (Rlt_dec a b) as [|_]; [lra|] end.
  eexists. split; [reflexivity|]. cbn.
  split; [reflexivity|]. do 2 eexists. split; [reflexivity|]. split; lra.
Qed.

(** The run of [time_algorithm] on [ex_self] with a clock that advances by
    one second per reading: one pass, then the budget of one second is
    used up. *)
Lemma ex_time_algorithm :
  exists r, time_algorithm ex_f ex_rng ex_clock 2 ex_self = Some (Ok r).
Proof.
  unfold time_algorithm, _initialize, uniform, ex_self.
  cbn [time_loop xlb xub ylb yub Ti0 Tf0 eps0 maxTime T Tf best_value].
  destruct (Rlt_dec 0 1) as [_|]; [|lra].
  unfold iteration, _neighbourhood_search, uniform, _find_best.
  cbn [xlb xub ylb yub new_solution new_value best_value T bind].
  unfold ex_f, ex_rng.
  match goal with |- context [Rlt_dec ?a ?b] =>
    destruct (Rlt_dec a b) as [|_]; [lra|] end.
  unfold np_div. destruct (Req_dec_T 1 0) as [|_]; [lra|].
  cbn [np_exp lt_np].
  match goal with |- context [Rlt_dec ?a (exp ?b)] =>
    destruct (Rlt_dec a (exp b)) as [_|Hn];
      [|exfalso; apply Hn, exp_above_quarter; lra] end.
  cbn [bind fst snd]. unfold ex_clock. cbn [INR].
  destruct (Rlt_dec (1 - 0) 1) as [|_]; [lra|].
  eexists. reflexivity.
Qed.

(** The value [algorithm] records after a pass: the candidate when it is
    better, the old value when the candidate fails the Metropolis test, and
    the candidate, although it is not better, when it passes the test. *)
Lemma iteration_best_value (f : R -> R -> R) (rng : nat -> R) (self : SA)
  (st st' : state) (d d' : nat) :
  iteration f rng self st d = Ok (st', d') ->
  let v := f (xlb self + (xub self - xlb self) * rng d)
             (ylb self + (yub self - ylb self) * rng (S d)) in
  (v < best_value st /\ best_value st' = v) \/
  (best_value st <= v /\ best_value st' = best_value st) \/
  (best_value st <= v /\ best_value st' = v /\
   exists t, T st = PFloat t /\
     lt_np (rng (S (S d))) (np_exp (np_div (best_value st - v) t)) = true).
Proof.
  unfold iteration, _neighbourhood_search, uniform, _find_best.
  cbn [new_solution new_value best_value T].
  match goal with |- context [Rlt_dec ?a ?b] =>
    destruct (Rlt_dec a b) as [Hlt|Hge] end.
  - cbn. intros H. inversion H; subst. cbn. auto.
  - destruct (T st) as [t|] eqn:ET; [|discriminate].
    match goal with |- context [lt_np ?a ?b] =>
      destruct (lt_np a b) eqn:Hm end;
      cbn; intros H; inversion H; subst; cbn.
    + right. right. split; [lra|]. split; [reflexivity|].
      exists t. auto.
    + right. left. split; [lra|reflexivity].
Qed.

(** ** Properties of the colony optimizer *)

Module ColonyFacts.

Import Colony.

Lemma f_nonneg (x y : R) : 0 <= f x y.
Proof.
  unfold f, a, b.
  assert (H1 := pow2_ge_0 (20 - x)). assert (H2 := pow2_ge_0 (y - x ^ 2)).
  nra.
Qed.

(** *** The minimum of the population *)

Lemma fold_min_spec (t : list bee) :
  forall x,
    let m := fold_left
               (fun m y => if Rlt_dec (solution y) (solution m) then y else m)
               t x in
    In m (x :: t) /\ forall y, In y (x :: t) -> solution m <= solution y.
Proof.
  induction t as [|z t IH]; intros x; cbn [fold_left].
  - split; [now left|]. intros y [<-|[]]. lra.
  - destruct (Rlt_dec (solution z) (solution x)) as [Hlt|Hge].
    + destruct (IH z) as [Hin Hmin]. split.
      * right. exact Hin.
      * intros y [<-|Hy]; [|now apply Hmin].
        specialize (Hmin z (or_introl eq_refl)). lra.
    + destruct (IH x) as [Hin Hmin]. split.
      * destruct Hin as [<-|Hin]; [now left|]. right. now right.
      * intros y [<-|[<-|Hy]].
        -- apply Hmin. now left.
        -- specialize (Hmin x (or_introl eq_refl)). lra.
        -- apply Hmin. now right.
Qed.

Lemma min_sol_spec (l : list bee) (m : bee) :
  min_sol l = Ok m ->
  In m l /\ forall y, In y l -> solution m <= solution y.
Proof.
  destruct l as [|x t]; cbn; [discriminate|].
  intros H. inversion H. apply fold_min_spec.
Qed.

Lemma min_sol_nonempty (l : list bee) :
  l <> [] -> exists m, min_sol l = Ok m.
Proof. destruct l; [congruence|]. intros _. eexists. reflexivity. Qed.

(** *** The bookkeeping after the phases *)

Lemma bookkeeping_spec (h h' : hive) (l : list bee) :
  bookkeeping h l = Ok h' ->
  bees h' = l /\ iter_count h' = S (iter_count h) /\
  best_value h' <= best_value h /\
  (forall y, In y l -> best_value h' <= solution y) /\
  ((best_value h' < 9 / 1000 /\
    old_best_value h' - best_value h' < 1 / 100 /\
    end_counter h' = S (end_counter h)) \/
   (~ (best_value h' < 9 / 1000 /\
       old_best_value h' - best_value h' < 1 / 100) /\
    end_counter h' = 0%nat)).
Proof.
  unfold bookkeeping. destruct (min_sol l) as [m|] eqn:Em; [|discriminate].
  apply min_sol_spec in Em. destruct Em as [_ Hmin]. cbn [bind].
  destruct (Rlt_dec (solution m) (best_value h)) as [Hlt|Hge];
    match goal with |- context [Rlt_dec ?v (9 / 1000)] =>
      destruct (Rlt_dec v (9 / 1000)) end;
    try match goal with |- context [Rlt_dec ?v (1 / 100)] =>
      destruct (Rlt_dec v (1 / 100)) end;
    intros H; inversion H; subst; cbn;
    (split; [reflexivity|]); (split; [reflexivity|]); (split; [lra|]);
    (split; [intros y Hy; specialize (Hmin y Hy); lra|]);
    try (left; repeat split; (lra || reflexivity));
    right; (split; [lra|reflexivity]).
Qed.

Section Facts.

Variable beehive_population : nat.
Variable rng : nat -> R.
Variable irng : nat -> nat.

#[local] Abbreviation iteration := (iteration beehive_population rng irng).
#[local] Abbreviation loop := (loop beehive_population rng irng).
#[local] Abbreviation after := (after beehive_population rng irng).
#[local] Abbreviation global_bests :=
  (global_bests beehive_population rng irng).

Lemma iteration_spec (h h' : hive) (d d' : nat) :
  iteration h d = Ok (h', d') ->
  exists l d2,
    scout_phase rng
      (fst (onlooker_phase beehive_population rng irng
              (fst (employed_phase rng (bees h) d))
              (sol_prob (fst (employed_phase rng (bees h) d)))
              (snd (employed_phase rng (bees h) d))))
      (snd (onlooker_phase beehive_population rng irng
              (fst (employed_phase rng (bees h) d))
              (sol_prob (fst (employed_phase rng (bees h) d)))
              (snd (employed_phase rng (bees h) d)))) = Ok (l, d2) /\
    bookkeeping h l = Ok h' /\ d' = d2.
Proof.
  unfold Colony.iteration.
  destruct (employed_phase rng (bees h) d) as [l1 d1]. cbn [fst snd].
  destruct (onlooker_phase _ _ _ l1 (sol_prob l1) d1) as [l2 d2].
  cbn [fst snd].
  destruct (scout_phase rng l2 d2) as [[l3 d3]|]; [|discriminate].
  cbn [bind fst snd].
  destruct (bookkeeping h l3) as [h3|] eqn:Eb; [|discriminate]. cbn [bind].
  intros H. inversion H; subst. exists l3, d'. auto.
Qed.

(** The global best never goes up across an iteration. *)
Lemma iteration_best (h h' : hive) (d d' : nat) :
  iteration h d = Ok (h', d') -> best_value h' <= best_value h.
Proof.
  intros H. apply iteration_spec in H.
  destruct H as (l & d2 & _ & Hb & _).
  now apply bookkeeping_spec in Hb.
Qed.

Lemma global_bests_head (k : nat) (h : hive) (d : nat) :
  exists t, global_bests k h d = best_value h :: t.
Proof. destruct k; cbn; eauto. Qed.

Lemma global_bests_non_increasing (k : nat) :
  forall h d, non_increasing (global_bests k h d).
Proof.
  induction k as [|k IH]; intros h d; cbn [Colony.global_bests];
    [exact I|].
  destruct (iteration h d) as [[h' d']|] eqn:E; [|exact I].
  specialize (IH h' d').
  destruct (global_bests_head k h' d') as [t Ht].
  rewrite Ht in *. cbn [non_increasing]. split; [|exact IH].
  eapply iteration_best; eauto.
Qed.

(** *** Leaving the loop *)

Lemma after_snoc (k : nat) :
  forall h d,
    after (S k) h d = (r <- after k h d ;; iteration (fst r) (snd r)).
Proof.
  induction k as [|k IH]; intros h d.
  - cbn. destruct (iteration h d) as [[h' d']|]; reflexivity.
  - change (after (S (S k)) h d)
      with (r <- iteration h d ;; after (S k) (fst r) (snd r)).
    change (after (S k) h d)
      with (r <- iteration h d ;; after k (fst r) (snd r)).
    destruct (iteration h d) as [[h' d']|]; [|reflexivity].
    cbn [bind fst snd]. apply IH.
Qed.

(** A loop that ends normally ends after some number of passes, with the
    counter of quiet iterations at ten. *)
Lemma loop_exit (fuel : nat) :
  forall h d h' d',
    loop fuel h d = Some (Ok (h', d')) ->
    end_counter h' = 10%nat /\
    exists k, (1 <= k <= fuel)%nat /\ after k h d = Ok (h', d').
Proof.
  induction fuel as [|fuel IH]; intros h d h' d'; cbn [Colony.loop];
    [discriminate|].
  destruct (iteration h d) as [[h1 d1]|] eqn:E; [|discriminate].
  destruct (Nat.eqb (end_counter h1) 10) eqn:E10.
  - intros H. inversion H; subst. split; [now apply Nat.eqb_eq|].
    exists 1%nat. split; [lia|]. cbn. now rewrite E.
  - intros H. apply IH in H. destruct H as (H10 & k & Hk & Ha).
    split; [exact H10|]. exists (S k). split; [lia|].
    cbn [Colony.after]. rewrite E. exact Ha.
Qed.

Lemma iteration_counter (h h' : hive) (d d' : nat) :
  iteration h d = Ok (h', d') ->
  (best_value h' < 9 / 1000 /\
   old_best_value h' - best_value h' < 1 / 100 /\
   end_counter h' = S (end_counter h)) \/
  (~ (best_value h' < 9 / 1000 /\
      old_best_value h' - best_value h' < 1 / 100) /\
   end_counter h' = 0%nat).
Proof.
  intros H. apply iteration_spec in H.
  destruct H as (l & d2 & _ & Hb & _).
  now apply bookkeeping_spec in Hb.
Qed.

(** A counter that stands at more than [j] was raised in each of the last
    [j + 1] passes, and each of them met both conditions. *)
Lemma counter_history (j : nat) :
  forall k h d hk dk,
    after k h d = Ok (hk, dk) ->
    (j < end_counter hk)%nat -> (j < k)%nat ->
    exists hj dj,
      after (k - j) h d = Ok (hj, dj) /\
      end_counter hj = (end_counter hk - j)%nat /\
      best_value hj < 9 / 1000 /\
      old_best_value hj - best_value hj < 1 / 100.
Proof.
  induction j as [|j IH]; intros k h d hk dk Ha Hc Hk;
    (destruct k as [|k]; [lia|]);
    pose proof Ha as Ha'; rewrite after_snoc in Ha';
    destruct (after k h d) as [[hp dp]|] eqn:Ep; try discriminate;
    cbn [bind fst snd] in Ha';
    destruct (iteration_counter _ _ _ _ Ha') as [(B1 & B2 & B3)|[_ B3]];
    try lia.
  - exists hk, dk. rewrite Nat.sub_0_r. repeat split; auto. lia.
  - destruct (IH k h d hp dp Ep) as (hj & dj & H1 & H2 & H3 & H4);
      [lia | lia |].
    exists hj, dj. replace (S k - S j)%nat with (k - j)%nat by lia.
    repeat split; auto. lia.
Qed.

Lemma counter_bound (k : nat) :
  forall h d hk dk,
    after k h d = Ok (hk, dk) ->
    (end_counter hk <= end_counter h + k)%nat.
Proof.
  induction k as [|k IH]; intros h d hk dk Ha.
  - cbn in Ha. inversion Ha; subst. lia.
  - rewrite after_snoc in Ha.
    destruct (after k h d) as [[hp dp]|] eqn:Ep; [|discriminate].
    cbn [bind fst snd] in Ha. specialize (IH h d hp dp Ep).
    destruct (iteration_counter _ _ _ _ Ha) as [(_ & _ & B3)|[_ B3]]; lia.
Qed.

End Facts.

(** *** A run that never leaves the loop

    When every unit sample is [1/2], every bee is created at [(5, 5)], each
    draw from [uniform(-1, 1)] is [0], so every candidate is the point it
    perturbs, and the population never moves: its values stay at [40225],
    the global best at its initial [10], and the counter at [0]. *)


Lemma f_stuck (x y : R) : x = 5 -> y = 5 -> f x y = 40225.
Proof. intros -> ->. unfold f, a, b. ring. Qed.

Section Stuck.

Variable beehive_population : nat.
Variable irng : nat -> nat.

#[local] Abbreviation half := (fun _ : nat => 1 / 2).

Lemma new_bees_stuck (n : nat) :
  forall d, Forall stuck (fst (new_bees half n d)) /\
            length (fst (new_bees half n d)) = n.
Proof.
  induction n as [|n IH]; intros d; cbn [new_bees].
  - split; [constructor|reflexivity].
  - unfold new_bee, uniform.
    match goal with |- context [new_bees half n ?k] =>
      specialize (IH k); destruct (new_bees half n k) as [t d2] end.
    cbn [fst snd] in *. destruct IH as [IH1 IH2]. split.
    + constructor; [|exact IH1]. unfold stuck. cbn.
      split; [lra|]. split; [lra|]. apply f_stuck; lra.
    + cbn. now rewrite IH2.
Qed.

Lemma replace_or_count_stuck (y : bee) (p : R * R) :
  stuck y -> fst p = 5 -> snd p = 5 -> stuck (replace_or_count y p).
Proof.
  intros (H1 & H2 & H3) Hp1 Hp2. unfold replace_or_count, stuck.
  destruct (Rlt_dec _ _); cbn.
  - repeat split; auto. now apply f_stuck.
  - auto.
Qed.

Lemma employed_step_stuck (y : bee) (d : nat) :
  stuck y -> stuck (fst (employed_step half y d)).
Proof.
  intros Hy. unfold employed_step, uniform. cbn [fst].
  destruct Hy as (H1 & H2 & H3).
  apply replace_or_count_stuck; [repeat split; auto | |]; cbn [fst snd]; nra.
Qed.

Lemma employed_phase_stuck (l : list bee) :
  forall d, Forall stuck l ->
    Forall stuck (fst (employed_phase half l d)) /\
    length (fst (employed_phase half l d)) = length l.
Proof.
  induction l as [|y t IH]; intros d Hl; cbn [employed_phase].
  - split; [constructor|reflexivity].
  - inversion Hl as [|? ? Hy Ht]; subst.
    pose proof (employed_step_stuck y d Hy) as Hs.
    destruct (employed_step half y d) as [y' d1]. cbn [fst] in Hs.
    specialize (IH d1 Ht).
    destruct (employed_phase half t d1) as [t' d2]. cbn [fst] in *.
    destruct IH as [IH1 IH2]. split; [now constructor|].
    cbn. now rewrite IH2.
Qed.

Lemma onlooker_step_stuck (y : bee) (p : npfloat) (d : nat) :
  stuck y -> stuck (fst (onlooker_step beehive_population half irng y p d)).
Proof.
  intros Hy. unfold onlooker_step, uniform, randint.
  destruct (selected _ p); cbn [fst]; [|exact Hy].
  destruct Hy as (H1 & H2 & H3).
  apply replace_or_count_stuck; [repeat split; auto | |]; cbn [fst snd].
  - match goal with |- context [?q ^ ?n] => generalize (q ^ n) end.
    intros z. nra.
  - match goal with |- context [?q ^ ?n] => generalize (q ^ n) end.
    intros z. nra.
Qed.

Lemma onlooker_phase_stuck (l : list bee) :
  forall ps d, Forall stuck l ->
    Forall stuck (fst (onlooker_phase beehive_population half irng l ps d)) /\
    length (fst (onlooker_phase beehive_population half irng l ps d))
    = length l.
Proof.
  induction l as [|y t IH]; intros ps d Hl; cbn [onlooker_phase].
  - split; [constructor|reflexivity].
  - destruct ps as [|p ps]; [split; [exact Hl|reflexivity]|].
    inversion Hl as [|? ? Hy Ht]; subst.
    pose proof (onlooker_step_stuck y p d Hy) as Hs.
    destruct (onlooker_step beehive_population half irng y p d) as [y' d1].
    cbn [fst] in Hs. specialize (IH ps d1 Ht).
    destruct (onlooker_phase beehive_population half irng t ps d1)
      as [t' d2].
    cbn [fst] in *. destruct IH as [IH1 IH2]. split; [now constructor|].
    cbn. now rewrite IH2.
Qed.

Lemma set_nth_Forall (P : bee -> Prop) (l : list bee) :
  forall i y, P y -> Forall P l -> Forall P (set_nth i y l).
Proof.
  induction l as [|x t IH]; intros i y Hy Hl; cbn; [constructor|].
  inversion Hl; subst. destruct i; constructor; auto.
Qed.

Lemma set_nth_length (l : list bee) :
  forall i y, length (set_nth i y l) = length l.
Proof.
  induction l as [|x t IH]; intros i y; cbn; [reflexivity|].
  destruct i; cbn; [reflexivity|]. now rewrite IH.
Qed.

Lemma scout_step_stuck (l : list bee) (i d : nat) :
  Forall stuck l ->
  exists l' d',
    scout_step half l i d = Ok (l', d') /\
    Forall stuck l' /\ length l' = length l.
Proof.
  intros Hl. unfold scout_step.
  destruct (nth_error l i) as [y|] eqn:En; [|eauto].
  destruct (Nat.ltb 100 (abandon_food y)); [|eauto].
  destruct (min_sol_nonempty l) as [m Hm].
  { intros ->. destruct i; discriminate. }
  rewrite Hm. cbn [bind].
  apply min_sol_spec in Hm. destruct Hm as [Hin _].
  rewrite Forall_forall in Hl. destruct (Hl m Hin) as (M1 & M2 & M3).
  unfold scout_candidate, uniform. do 2 eexists.
  split; [reflexivity|]. split; [|apply set_nth_length].
  apply set_nth_Forall; [|now apply Forall_forall].
  unfold stuck. cbn [militia solution fst snd].
  assert (E1 : fst (militia m) + (-1 + (1 - -1) * (1 / 2)) *
                 (fst (militia m) - (0 + (a ^ 2 - 0) * (1 / 2))) = 5) by nra.
  assert (E2 : snd (militia m) + (-1 + (1 - -1) * (1 / 2)) *
                 (snd (militia m) - (0 + (a ^ 2 - 0) * (1 / 2))) = 5) by nra.
  split; [exact E1|]. split; [exact E2|]. now apply f_stuck.
Qed.

Lemma scout_loop_stuck (k : nat) :
  forall l i d, Forall stuck l ->
  exists l' d',
    scout_loop half k i l d = Ok (l', d') /\
    Forall stuck l' /\ length l' = length l.
Proof.
  induction k as [|k IH]; intros l i d Hl; cbn [scout_loop]; [eauto|].
  destruct (scout_step_stuck l i d Hl) as (l1 & d1 & E & H1 & H2).
  rewrite E. cbn [bind fst snd].
  destruct (IH l1 (S i) d1 H1) as (l2 & d2 & E2 & H3 & H4).
  exists l2, d2. split; [exact E2|]. split; [exact H3|]. congruence.
Qed.

Lemma iteration_stuck (h : hive) (d : nat) :
  stuck_hive h ->
  exists h' d',
    iteration beehive_population half irng h d = Ok (h', d') /\
    stuck_hive h' /\ end_counter h' = 0%nat.
Proof.
  intros (Hl & Hne & Hb). unfold iteration.
  destruct (employed_phase_stuck (bees h) d Hl) as [E1 E2].
  destruct (employed_phase half (bees h) d) as [l1 d1]. cbn [fst] in *.
  destruct (onlooker_phase_stuck l1 (sol_prob l1) d1 E1) as [O1 O2].
  destruct (onlooker_phase beehive_population half irng l1 (sol_prob l1) d1)
    as [l2 d2].
  cbn [fst] in *. unfold scout_phase.
  destruct (scout_loop_stuck (length l2) l2 0 d2 O1)
    as (l3 & d3 & S1 & S2 & S3).
  rewrite S1. cbn [bind fst snd].
  assert (Hne3 : l3 <> []).
  { intros ->. cbn in S3. destruct (bees h); [congruence|].
    cbn in E2. lia. }
  unfold bookkeeping.
  destruct (min_sol_nonempty l3 Hne3) as [m Hm]. rewrite Hm. cbn [bind].
  apply min_sol_spec in Hm. destruct Hm as [Hin _].
  rewrite Forall_forall in S2. destruct (S2 m Hin) as (_ & _ & M3).
  rewrite M3, Hb.
  destruct (Rlt_dec 40225 10) as [|_]; [lra|].
  destruct (Rlt_dec 10 (9 / 1000)) as [|_]; [lra|].
  do 2 eexists. split; [reflexivity|]. cbn.
  split; [|reflexivity]. split; [now apply Forall_forall|]. auto.
Qed.

Lemma loop_stuck (fuel : nat) :
  forall h d, stuck_hive h -> loop beehive_population half irng fuel h d = None.
Proof.
  induction fuel as [|fuel IH]; intros h d Hh; cbn [loop]; [reflexivity|].
  destruct (iteration_stuck h d Hh) as (h' & d' & E & Hh' & Hc).
  rewrite E, Hc. cbn. now apply IH.
Qed.

Lemma script_stuck (fuel : nat) :
  (2 <= beehive_population)%nat ->
  script beehive_population half irng fuel = None.
Proof.
  intros Hp. unfold script, start.
  destruct (new_bees_stuck (colony_size beehive_population) 0) as [H1 H2].
  destruct (new_bees half (colony_size beehive_population) 0) as [l d].
  cbn [fst] in *. apply loop_stuck. unfold stuck_hive. cbn [bees best_value].
  split; [exact H1|]. split; [|reflexivity].
  intros ->. cbn [length] in H2. unfold colony_size in H2.
  assert (1 <= beehive_population / 2)%nat.
  { apply Nat.div_le_lower_bound; lia. }
  lia.
Qed.

End Stuck.

(** *** The selection weights *)


Lemma fold_sum_acc (l : list bee) :
  forall acc,
    fold_left (fun s y => s + solution y) l acc = acc + sum_solutions l.
Proof.
  unfold sum_solutions. induction l as [|y t IH]; intros acc; cbn; [lra|].
  rewrite (IH (acc + solution y)), (IH (0 + solution y)). lra.
Qed.

Lemma sum_solutions_cons (y : bee) (t : list bee) :
  sum_solutions (y :: t) = solution y + sum_solutions t.
Proof. unfold sum_solutions at 1. cbn. rewrite fold_sum_acc. lra. Qed.

Lemma sum_solutions_bounds (l : list bee) :
  Forall nonneg l ->
  0 <= sum_solutions l /\ forall y, In y l -> solution y <= sum_solutions l.
Proof.
  induction 1 as [|x t Hx Ht [IH0 IH]].
  - split; [unfold sum_solutions; cbn; lra|]. intros y [].
  - rewrite sum_solutions_cons. unfold nonneg in Hx. split; [lra|].
    intros y [<-|Hy]; [lra|]. specialize (IH y Hy). lra.
Qed.

Lemma sol_prob_nonzero (l : list bee) :
  sum_solutions l <> 0 ->
  sol_prob l = map (fun y => Fin (solution y / sum_solutions l)) l.
Proof.
  intros Hs. unfold sol_prob. apply map_ext. intros y. unfold np_div.
  destruct (Req_dec_T (sum_solutions l) 0); [contradiction|reflexivity].
Qed.

Lemma sol_prob_zero (l : list bee) :
  Forall nonneg l -> sum_solutions l = 0 ->
  sol_prob l = map (fun _ => NaN) l.
Proof.
  intros Hl Hs. unfold sol_prob. apply map_ext_in. intros y Hy.
  destruct (sum_solutions_bounds l Hl) as [_ Hb]. specialize (Hb y Hy).
  rewrite Forall_forall in Hl. specialize (Hl y Hy). unfold nonneg in Hl.
  unfold np_div. destruct (Req_dec_T (sum_solutions l) 0); [|contradiction].
  destruct (Rlt_dec 0 (solution y)); [lra|].
  destruct (Rlt_dec (solution y) 0); [lra|reflexivity].
Qed.

(** With [nan] for every weight the onlooker phase picks no bee. *)
Lemma onlooker_phase_nan (beehive_population : nat) (rng : nat -> R)
  (irng : nat -> nat) (l : list bee) :
  forall d,
    fst (onlooker_phase beehive_population rng irng l
           (map (fun _ => NaN) l) d) = l.
Proof.
  induction l as [|y t IH]; intros d; cbn [onlooker_phase map];
    [reflexivity|].
  unfold onlooker_step, uniform. cbn [selected gt_np].
  match goal with |- context [onlooker_phase _ _ _ t _ ?k] =>
    specialize (IH k);
    destruct (onlooker_phase beehive_population rng irng t
                (map (fun _ => NaN) t) k) as [t' d2] end.
  cbn [fst] in *. now rewrite IH.
Qed.

(** Among non-negative values, a draw that picks a bee picks every bee with
    a smaller value as well. *)
Lemma selected_monotone (l : list bee) (y1 y2 : bee) (r1 : R) :
  Forall nonneg l -> In y1 l -> In y2 l ->
  solution y1 < solution y2 ->
  selected r1 (np_div (solution y2) (sum_solutions l)) = true ->
  selected r1 (np_div (solution y1) (sum_solutions l)) = true.
Proof.
  intros Hl H1 H2 Hlt.
  destruct (sum_solutions_bounds l Hl) as [_ Hb].
  pose proof (Hb y2 H2) as Hb2.
  rewrite Forall_forall in Hl. pose proof (Hl y1 H1) as Hn1.
  unfold nonneg in Hn1. unfold selected, np_div.
  destruct (Req_dec_T (sum_solutions l) 0); [lra|]. cbn [gt_np].
  assert (Hs : 0 < sum_solutions l) by lra.
  assert (Hw : solution y1 / sum_solutions l < solution y2 / sum_solutions l).
  { unfold Rdiv. apply Rmult_lt_compat_r; [now apply Rinv_0_lt_compat|lra]. }
  destruct (Rlt_dec (solution y2 / sum_solutions l) r1); [|discriminate].
  intros _. destruct (Rlt_dec (solution y1 / sum_solutions l) r1);
    [reflexivity|lra].
Qed.

(** When the better bee's weight is below the top of the range of draws,
    some draw of the range picks it and not the worse bee. *)
Lemma selected_strictly (l : list bee) (y1 y2 : bee) (c : R) :
  Forall nonneg l -> In y1 l -> In y2 l ->
  solution y1 < solution y2 ->
  solution y1 / sum_solutions l < c ->
  exists u, 0 <= u < 1 /\
    selected (0 + (c - 0) * u) (np_div (solution y1) (sum_solutions l)) = true
    /\
    selected (0 + (c - 0) * u) (np_div (solution y2) (sum_solutions l)) = false.
Proof.
  intros Hl H1 H2 Hlt Hc.
  destruct (sum_solutions_bounds l Hl) as [_ Hb].
  pose proof (Hb y2 H2) as Hb2.
  rewrite Forall_forall in Hl. pose proof (Hl y1 H1) as Hn1.
  unfold nonneg in Hn1.
  assert (Hs : 0 < sum_solutions l) by lra.
  set (w1 := solution y1 / sum_solutions l) in *.
  set (w2 := solution y2 / sum_solutions l).
  assert (Hw : w1 < w2).
  { unfold w1, w2, Rdiv.
    apply Rmult_lt_compat_r; [now apply Rinv_0_lt_compat|lra]. }
  assert (Hw0 : 0 <= w1).
  { unfold w1, Rdiv. apply Rmult_le_pos; [lra|].
    left. now apply Rinv_0_lt_compat. }
  set (r := (w1 + Rmin w2 c) / 2).
  assert (Hm1 : w1 < Rmin w2 c) by (apply Rmin_glb_lt; lra).
  assert (Hm2 : Rmin w2 c <= w2) by apply Rmin_l.
  assert (Hm3 : Rmin w2 c <= c) by apply Rmin_r.
  assert (Hr : w1 < r < c /\ r < w2) by (unfold r; lra).
  exists (r / c).
  assert (Hrc : 0 + (c - 0) * (r / c) = r) by (field; lra).
  rewrite Hrc. split.
  - split.
    + apply Rmult_le_pos; [lra|]. left. apply Rinv_0_lt_compat. lra.
    + unfold Rdiv. apply div_lt_one; lra.
  - unfold selected, np_div.
    destruct (Req_dec_T (sum_solutions l) 0); [lra|]. cbn [gt_np].
    fold w1 w2. destruct (Rlt_dec w1 r); [|lra].
    destruct (Rlt_dec w2 r); [lra|]. auto.
Qed.

(** *** Values stay non-negative *)

Lemma replace_or_count_nonneg (y : bee) (p : R * R) :
  nonneg y -> nonneg (replace_or_count y p).
Proof.
  intros Hy. unfold replace_or_count, nonneg.
  destruct (Rlt_dec _ _); cbn; [apply f_nonneg|exact Hy].
Qed.

Section Nonneg.

Variable beehive_population : nat.
Variable rng : nat -> R.
Variable irng : nat -> nat.

Lemma new_bees_nonneg (n : nat) :
  forall d, Forall nonneg (fst (new_bees rng n d)).
Proof.
  induction n as [|n IH]; intros d; cbn [new_bees]; [constructor|].
  unfold new_bee, uniform.
  match goal with |- context [new_bees rng n ?k] =>
    specialize (IH k); destruct (new_bees rng n k) as [t d2] end.
  cbn [fst] in *. constructor; [apply f_nonneg|exact IH].
Qed.

Lemma employed_phase_nonneg (l : list bee) :
  forall d, Forall nonneg l -> Forall nonneg (fst (employed_phase rng l d)).
Proof.
  induction l as [|y t IH]; intros d Hl; cbn [employed_phase];
    [constructor|].
  inversion Hl as [|? ? Hy Ht]; subst.
  unfold employed_step, uniform.
  match goal with |- context [employed_phase rng t ?k] =>
    specialize (IH k Ht); destruct (employed_phase rng t k) as [t' d2] end.
  cbn [fst] in *. constructor; [now apply replace_or_count_nonneg|exact IH].
Qed.

Lemma onlooker_phase_nonneg (l : list bee) :
  forall ps d, Forall nonneg l ->
    Forall nonneg (fst (onlooker_phase beehive_population rng irng l ps d)).
Proof.
  induction l as [|y t IH]; intros ps d Hl; cbn [onlooker_phase];
    [constructor|].
  destruct ps as [|p ps]; [exact Hl|].
  inversion Hl as [|? ? Hy Ht]; subst.
  assert (Hs : nonneg (fst (onlooker_step beehive_population rng irng y p d))).
  { unfold onlooker_step, uniform, randint.
    destruct (selected _ p); cbn [fst];
      [now apply replace_or_count_nonneg|exact Hy]. }
  destruct (onlooker_step beehive_population rng irng y p d) as [y' d1].
  specialize (IH ps d1 Ht).
  destruct (onlooker_phase beehive_population rng irng t ps d1) as [t' d2].
  cbn [fst] in *. now constructor.
Qed.

Lemma scout_step_nonneg (l l' : list bee) (i d d' : nat) :
  Forall nonneg l -> scout_step rng l i d = Ok (l', d') -> Forall nonneg l'.
Proof.
  intros Hl. unfold scout_step.
  destruct (nth_error l i) as [y|]; [|intros H; inversion H; now subst].
  destruct (Nat.ltb 100 (abandon_food y));
    [|intros H; inversion H; now subst].
  destruct (min_sol l) as [m|]; [|discriminate]. cbn [bind].
  destruct (scout_candidate rng m d) as [c d1].
  intros H. inversion H; subst.
  apply set_nth_Forall; [apply f_nonneg|exact Hl].
Qed.

Lemma scout_loop_nonneg (k : nat) :
  forall l l' i d d',
    Forall nonneg l -> scout_loop rng k i l d = Ok (l', d') ->
    Forall nonneg l'.
Proof.
  induction k as [|k IH]; intros l l' i d d' Hl; cbn [scout_loop].
  - intros H. inversion H; now subst.
  - destruct (scout_step rng l i d) as [[l1 d1]|] eqn:E; [|discriminate].
    cbn [bind fst snd]. apply IH. eapply scout_step_nonneg; eauto.
Qed.

Lemma iteration_nonneg (h h' : hive) (d d' : nat) :
  Forall nonneg (bees h) ->
  iteration beehive_population rng irng h d = Ok (h', d') ->
  Forall nonneg (bees h').
Proof.
  intros Hl H. apply iteration_spec in H.
  destruct H as (l & d2 & Hs & Hb & _).
  apply bookkeeping_spec in Hb. destruct Hb as [-> _].
  unfold scout_phase in Hs. eapply scout_loop_nonneg; [|exact Hs].
  apply onlooker_phase_nonneg, employed_phase_nonneg, Hl.
Qed.

Lemma after_nonneg (k : nat) :
  forall h d h' d',
    Forall nonneg (bees h) ->
    after beehive_population rng irng k h d = Ok (h', d') ->
    Forall nonneg (bees h').
Proof.
  induction k as [|k IH]; intros h d h' d' Hl; cbn [after].
  - intros H. inversion H; now subst.
  - destruct (iteration beehive_population rng irng h d) as [[h1 d1]|] eqn:E;
      [|discriminate].
    cbn [bind fst snd]. apply IH. eapply iteration_nonneg; eauto.
Qed.

Lemma start_nonneg (d : nat) :
  Forall nonneg (bees (fst (start beehive_population rng d))).
Proof.
  unfold start.
  pose proof (new_bees_nonneg (colony_size beehive_population) d) as H.
  destruct (new_bees rng (colony_size beehive_population) d) as [l d1].
  exact H.
Qed.

End Nonneg.

(** *** The scout phase *)

Lemma set_nth_same (l : list bee) :
  forall i x y, nth_error l i = Some x -> nth_error (set_nth i y l) i = Some y.
Proof.
  induction l as [|z t IH]; intros [|i] x y; cbn; try discriminate; auto.
  apply IH.
Qed.

Lemma set_nth_other (l : list bee) :
  forall i j y, j <> i -> nth_error (set_nth i y l) j = nth_error l j.
Proof.
  induction l as [|z t IH]; intros [|i] [|j] y Hj; cbn; auto; try congruence.
Qed.

(** C1, the colony half and the annealing half as the code has them.  The
    global best of the colony never goes up from one iteration to the next.
    The value [algorithm] records after a pass is at most the one before,
    except when the candidate is not better and passes the Metropolis test
    [r < exp((best - new)/T)]: then the candidate's value is recorded,
    whatever it is. *)
Theorem recorded_best_steps :
  (forall beehive_population rng irng k h d,
      non_increasing (global_bests beehive_population rng irng k h d)) /\
  (forall f rng self st d st' d',
      Annealing.iteration f rng self st d = Ok (st', d') ->
      Annealing.best_value st' <= Annealing.best_value st \/
      exists t v,
        v = f (Annealing.xlb self
                 + (Annealing.xub self - Annealing.xlb self) * rng d)
              (Annealing.ylb self
                 + (Annealing.yub self - Annealing.ylb self) * rng (S d)) /\
        Annealing.T st = PFloat t /\
        Annealing.best_value st <= v /\
        lt_np (rng (S (S d)))
          (np_exp (np_div (Annealing.best_value st - v) t)) = true /\
        Annealing.best_value st' = v).
Proof.
  split.
  - intros. apply global_bests_non_increasing.
  - intros f rng self st d st' d' H.
    apply iteration_best_value in H. cbv zeta in H.
    destruct H as [[H1 H2]|[[H1 H2]|(H1 & H2 & t & H3 & H4)]].
    + left. lra.
    + left. lra.
    + right. exists t. eexists. split; [reflexivity|]. auto.
Qed.

(** C2, as the code has it.  The loop has no iteration budget.  It is left
    only when the counter of quiet iterations reaches ten, and the counter
    got there through as many passes in a row, each ending with the best
    value below [9e-3] and less than [0.01] under the best before it. *)
Theorem loop_stops_only_by_counter (beehive_population : nat)
  (rng : nat -> R) (irng : nat -> nat) (fuel : nat) (h h' : hive)
  (d d' : nat) :
  loop beehive_population rng irng fuel h d = Some (Ok (h', d')) ->
  end_counter h' = 10%nat /\
  exists k, (1 <= k <= fuel)%nat /\
    after beehive_population rng irng k h d = Ok (h', d') /\
    (10 <= end_counter h + k)%nat /\
    forall j, (j < 10)%nat -> (j < k)%nat ->
      exists hj dj,
        after beehive_population rng irng (k - j) h d = Ok (hj, dj) /\
        best_value hj < 9 / 1000 /\
        old_best_value hj - best_value hj < 1 / 100.
Proof.
  intros H. apply loop_exit in H. destruct H as (H10 & k & Hk & Ha).
  split; [exact H10|]. exists k. split; [exact Hk|]. split; [exact Ha|].
  split.
  - apply counter_bound in Ha. lia.
  - intros j Hj Hjk.
    destruct (counter_history beehive_population rng irng j k h d h' d' Ha)
      as (hj & dj & A1 & _ & A3 & A4); [lia | lia |].
    exists hj, dj. auto.
Qed.

(** While the best value is not below [9e-3] the loop is not left, however
    many passes it is given. *)
Lemma loop_runs_on (beehive_population : nat) (rng : nat -> R)
  (irng : nat -> nat) (h : hive) (d : nat) :
  (forall k h' d',
      after beehive_population rng irng k h d = Ok (h', d') ->
      9 / 1000 <= best_value h') ->
  forall fuel x, loop beehive_population rng irng fuel h d <> Some (Ok x).
Proof.
  intros Hb fuel [h' d'] H.
  apply loop_exit in H. destruct H as (H10 & k & Hk & Ha).
  pose proof (Hb k h' d' Ha) as Hge.
  destruct (counter_history beehive_population rng irng 0 k h d h' d' Ha)
    as (hj & dj & A1 & _ & A3 & _); [lia | lia |].
  rewrite Nat.sub_0_r, Ha in A1. inversion A1; subst. lra.
Qed.

(** C4, as the code has it.  The weights are [value / sum] with no test of
    the sum.  A non-zero sum gives the finite quotients.  A zero sum, which
    among the non-negative values of the script means that every value is
    zero, gives [nan] for every weight, raises nothing, and the onlooker
    phase that follows picks no bee at all. *)
Theorem weights_unchecked (beehive_population : nat) (rng : nat -> R)
  (irng : nat -> nat) (l : list bee) (d : nat) :
  Forall nonneg l ->
  (sum_solutions l <> 0 ->
   sol_prob l = map (fun y => Fin (solution y / sum_solutions l)) l) /\
  (sum_solutions l = 0 ->
   sol_prob l = map (fun _ => NaN) l /\
   fst (onlooker_phase beehive_population rng irng l (sol_prob l) d) = l).
Proof.
  intros Hl. split; [apply sol_prob_nonzero|].
  intros Hs. rewrite (sol_prob_zero l Hl Hs).
  split; [reflexivity|apply onlooker_phase_nan].
Qed.

(** C8, as the code has it.  A bee whose counter is above 100 is replaced
    by a perturbation of the entry that holds the least value in the
    population when the bee is reached, and its counter is set to zero;
    the other entries are untouched.  A bee whose counter is at most 100 is
    left alone. *)
Theorem scout_replaces_from_population_minimum (rng : nat -> R)
  (l : list bee) (i d : nat) (y : bee) :
  nth_error l i = Some y ->
  ((100 < abandon_food y)%nat ->
   exists m l',
     min_sol l = Ok m /\
     let c :=
       (fst (militia m) + (-1 + (1 - -1) * rng (S (S d)))
                          * (fst (militia m) - (0 + (a ^ 2 - 0) * rng d)),
        snd (militia m) + (-1 + (1 - -1) * rng (S (S (S d))))
                          * (snd (militia m) - (0 + (a ^ 2 - 0) * rng (S d))))
     in
     scout_step rng l i d = Ok (l', S (S (S (S d)))) /\
     nth_error l' i = Some (mkBee c (f (fst c) (snd c)) 0) /\
     forall j, j <> i -> nth_error l' j = nth_error l j) /\
  ((abandon_food y <= 100)%nat -> scout_step rng l i d = Ok (l, d)).
Proof.
  intros Hn. unfold scout_step. rewrite Hn. split.
  - intros Hc. apply Nat.ltb_lt in Hc. rewrite Hc.
    destruct (min_sol_nonempty l) as [m Hm].
    { intros ->. destruct i; discriminate. }
    rewrite Hm. cbn [bind]. unfold scout_candidate, uniform.
    exists m. eexists. split; [reflexivity|]. cbv zeta.
    split; [reflexivity|]. split.
    + eapply set_nth_same; eauto.
    + intros j Hj. now apply set_nth_other.
  - intros Hc. apply Nat.ltb_ge in Hc. now rewrite Hc.
Qed.

(** *** Worked runs of the colony *)

Lemma f_minimum : f 20 400 = 0.
Proof. unfold f, a, b. ring. Qed.

(** One pass over [ex_quiet] with every sample at [1/2] changes nothing but
    the counters, and the tenth quiet iteration ends the loop. *)
Lemma ex_loop :
  exists h' d', loop 2 ex_half ex_irng 1 ex_quiet 0 = Some (Ok (h', d')).
Proof.
  unfold loop, iteration, ex_quiet. cbn [bees employed_phase].
  unfold employed_step, uniform, replace_or_count, ex_half.
  cbn [militia solution fst snd abandon_food].
  match goal with |- context [Rlt_dec (f ?x ?y) 0] =>
    destruct (Rlt_dec (f x y) 0) as [Hlt|_];
      [pose proof (f_nonneg x y); lra|] end.
  unfold sol_prob, sum_solutions, np_div. cbn [map fold_left solution].
  destruct (Req_dec_T (0 + 0) 0) as [_|]; [|lra].
  destruct (Rlt_dec 0 0) as [|_]; [lra|].
  cbn [onlooker_phase]. unfold onlooker_step, uniform.
  cbn [selected gt_np fst snd scout_phase length scout_loop].
  unfold scout_step. cbn [nth_error abandon_food Nat.ltb Nat.leb bind fst snd].
  unfold bookkeeping. cbn [min_sol fold_left bind solution best_value].
  destruct (Rlt_dec 0 0) as [|_]; [lra|].
  cbn [old_best_value end_counter].
  destruct (Rlt_dec 0 (9 / 1000)) as [_|]; [|lra].
  destruct (Rlt_dec (1 / 200 - 0) (1 / 100)) as [_|]; [|lra].
  cbn. do 2 eexists. reflexivity.
Qed.

Lemma scout_step_abandoned (rng : nat -> R) (l : list bee) (i d : nat)
  (y m : bee) :
  nth_error l i = Some y -> (100 < abandon_food y)%nat ->
  min_sol l = Ok m ->
  scout_step rng l i d =
  Ok (set_nth i
        (mkBee (fst (scout_candidate rng m d))
           (f (fst (fst (scout_candidate rng m d)))
              (snd (fst (scout_candidate rng m d)))) 0) l,
      S (S (S (S d)))).
Proof.
  intros Hn Hc Hm. unfold scout_step. rewrite Hn.
  apply Nat.ltb_lt in Hc. rewrite Hc, Hm. reflexivity.
Qed.

(** The scout phase on [ex_hive]: the first bee is thrown from the minimum
    to [(0, 0)], worth [400]; the second bee is then the least of the
    population and is rebuilt around itself. *)
Lemma ex_scout_phase :
  exists a' b',
    scout_phase ex_rng8 (bees ex_hive) 0 = Ok ([a'; b'], 8%nat) /\
    abandon_food b' = 0%nat /\
    fst (militia b') = 19 /\ snd (militia b') = 361.
Proof.
  unfold scout_phase, ex_hive. cbn [bees length scout_loop].
  rewrite (scout_step_abandoned ex_rng8 [ex_A; ex_B] 0 0 ex_A ex_A);
    [ | reflexivity | cbn; lia | ].
  2: { unfold ex_A, ex_B. cbn.
       destruct (Rlt_dec 1 0) as [|_]; [lra|reflexivity]. }
  cbn [bind fst snd set_nth].
  rewrite (scout_step_abandoned ex_rng8 _ 1 4 ex_B ex_B);
    [ | reflexivity | cbn; lia | ].
  2: { unfold ex_A, ex_B, scout_candidate, uniform, ex_rng8.
       cbn [min_sol fold_left solution militia fst snd Nat.ltb Nat.leb].
       match goal with |- context [Rlt_dec 1 ?v] =>
         destruct (Rlt_dec 1 v) as [_|Hn];
           [reflexivity | exfalso; apply Hn; unfold f, a, b; lra] end. }
  cbn [bind fst snd set_nth].
  do 2 eexists. split; [reflexivity|].
  unfold ex_B, scout_candidate, uniform, ex_rng8, a.
  cbn [abandon_food militia fst snd Nat.ltb Nat.leb].
  split; [reflexivity|]. split; lra.
Qed.

(** The population of the first selection phase when the first sample is
    [0] and the others are [1/2]: a bee worth [400] and a bee worth
    [40225]. *)
Lemma ex_selection :
  exists y1 y2,
    fst (employed_phase ex_rng5 (bees (fst (start 4 ex_rng5 0)))
           (snd (start 4 ex_rng5 0))) = [y1; y2] /\
    solution y1 = 400 /\ solution y2 = 40225.
Proof.
  unfold start, colony_size. cbn [Nat.div Nat.divmod fst snd new_bees].
  unfold new_bee, uniform, ex_rng5. cbn [fst snd bees employed_phase].
  unfold employed_step, uniform, replace_or_count.
  cbn [fst snd militia solution abandon_food].
  match goal with |- context [Rlt_dec ?u ?v] =>
    destruct (Rlt_dec u v) as [Hlt|_];
      [exfalso; revert Hlt; unfold f, a, b; lra|] end.
  match goal with |- context [Rlt_dec ?u ?v] =>
    destruct (Rlt_dec u v) as [Hlt|_];
      [exfalso; revert Hlt; unfold f, a, b; lra|] end.
  do 2 eexists. split; [reflexivity|]. cbn [solution].
  unfold f, a, b. split; lra.
Qed.

(** *** The properties on the worked runs *)

(** C1 at work: the colony's global bests over one iteration of a hive of
    two bees, and the first pass of the annealing run on [ex_self]. *)
Lemma recorded_best_steps_witness :
  non_increasing
    (global_bests 4 ex_rng5 ex_irng 1 (fst (start 4 ex_rng5 0))
       (snd (start 4 ex_rng5 0))) /\
  exists st' d',
    Annealing.iteration ex_f ex_rng ex_self
      (fst (Annealing._initialize ex_f ex_rng ex_self 0)) 2 = Ok (st', d') /\
    (Annealing.best_value st' <=
       Annealing.best_value (fst (Annealing._initialize ex_f ex_rng ex_self 0))
     \/ exists t v,
          Annealing.T (fst (Annealing._initialize ex_f ex_rng ex_self 0))
          = PFloat t /\ Annealing.best_value st' = v).
Proof.
  destruct recorded_best_steps as [Hc Ha]. split; [apply Hc|].
  destruct (iteration_cools ex_f ex_rng ex_self
              (fst (Annealing._initialize ex_f ex_rng ex_self 0)) 2
              1 (9 / 10) eq_refl eq_refl) as (st' & d' & H & _).
  exists st', d'. split; [exact H|].
  destruct (Ha _ _ _ _ _ _ _ H) as [Hle|(t & v & _ & Ht & _ & _ & Hv)].
  - left. exact Hle.
  - right. exists t, v. split; assumption.
Defined.

(** C2 refuted: the script itself, with its 100 bees, on the run where
    every unit sample is [1/2], never leaves its loop. *)
Lemma script_never_stops :
  ~ exists fuel o, script 100 ex_half ex_irng fuel = Some o.
Proof.
  intros (fuel & o & H).
  unfold ex_half in H. rewrite script_stuck in H by lia. discriminate.
Qed.

(** C2 at work: the loop on [ex_quiet] stops after its tenth quiet
    iteration. *)
Lemma loop_stops_only_by_counter_witness :
  exists h' d',
    loop 2 ex_half ex_irng 1 ex_quiet 0 = Some (Ok (h', d')) /\
    end_counter h' = 10%nat /\ best_value h' < 9 / 1000.
Proof.
  destruct ex_loop as (h' & d' & H). exists h', d'.
  split; [exact H|].
  destruct (loop_stops_only_by_counter 2 ex_half ex_irng 1 ex_quiet h' 0 d' H)
    as (H10 & k & Hk & Ha & _ & Hh).
  split; [exact H10|].
  destruct (Hh 0%nat) as (hj & dj & A1 & A2 & _); [lia | lia |].
  rewrite Nat.sub_0_r, Ha in A1. inversion A1; subst. exact A2.
Defined.

Lemma ex_zero_nonneg : Forall nonneg ex_zero.
Proof. unfold ex_zero, nonneg. repeat constructor; cbn; lra. Qed.

Lemma ex_zero_sum : sum_solutions ex_zero = 0.
Proof. unfold ex_zero, sum_solutions. cbn. lra. Qed.

(** C4 refuted: with both bees at the minimum the sum is zero, and the
    weights are [nan], not those of a uniform selection. *)
Lemma zero_sum_goes_unnoticed : ~ zero_sum_handled ex_zero.
Proof.
  intros H. destruct H as [w Hw]; [rewrite ex_zero_sum; lra|].
  rewrite (sol_prob_zero ex_zero ex_zero_nonneg ex_zero_sum) in Hw.
  discriminate.
Qed.

(** C4 at work, on the same population. *)
Lemma weights_unchecked_witness :
  sol_prob ex_zero = [NaN; NaN] /\
  fst (onlooker_phase 4 ex_half ex_irng ex_zero (sol_prob ex_zero) 0)
  = ex_zero.
Proof.
  destruct (weights_unchecked 4 ex_half ex_irng ex_zero 0 ex_zero_nonneg)
    as [_ H].
  exact (H ex_zero_sum).
Defined.

(** C8 refuted: in the scout phase on [ex_hive] the second bee is rebuilt
    at [(19, 361)], around itself, and not around the recorded global best
    [(20, 400)], which the same draws would leave at [(20, 400)]. *)
Lemma scout_ignores_recorded_best :
  exists a' b',
    scout_phase ex_rng8 (bees ex_hive) 0 = Ok ([a'; b'], 8%nat) /\
    militia b' <>
    fst (scout_candidate ex_rng8
           (mkBee (best_sol ex_hive) (best_value ex_hive) 0) 4).
Proof.
  destruct ex_scout_phase as (a' & b' & H & _ & H1 & _).
  exists a', b'. split; [exact H|].
  intros E. apply (f_equal fst) in E. rewrite H1 in E.
  unfold scout_candidate, uniform, ex_rng8, ex_hive, a in E.
  cbn [best_sol militia fst snd Nat.ltb Nat.leb] in E. lra.
Qed.

(** C8 at work: the first bee of [ex_hive] is replaced, with four draws. *)
Lemma scout_replaces_witness :
  exists l', scout_step ex_rng8 (bees ex_hive) 0 0 = Ok (l', 4%nat).
Proof.
  destruct (scout_replaces_from_population_minimum ex_rng8 (bees ex_hive)
              0 0 ex_A eq_refl) as [H _].
  destruct H as (m & l' & _ & H & _); [cbn; lia|].
  exists l'. exact H.
Defined.

End ColonyFacts.

(** ** The annealing properties on the worked run *)

(** C1 refuted: on the valid configuration [ex_self] the trace of
    [algorithm] goes from [0] up to [1/2]. *)
Lemma annealing_trace_regresses :
  exists self r,
    __init__ [0; 1] [1; 0] 1 (1 / 10) 1 1 = Ok self /\
    algorithm ex_f ex_rng 2 self = Some (Ok r) /\
    ~ non_increasing (best_values r).
Proof.
  destruct ex_algorithm as (r & Hr & _ & v0 & v1 & Hv & H0 & H1).
  exists ex_self, r. split; [exact ex_init|]. split; [exact Hr|].
  rewrite Hv. cbn. lra.
Qed.





Lemma ex_rng_unit (k : nat) : 0 <= ex_rng k < 1.
Proof. do 5 (destruct k as [|k]; [cbn; lra|]). cbn. lra. Qed.

(** C10 at work. *)
Lemma candidates_in_bounds_witness :
  exists r,
    algorithm ex_f ex_rng 2 ex_self = Some (Ok r) /\
    box_inv ex_self (final r).
Proof.
  destruct ex_algorithm as (r & Hr & _).
  exists r. split; [exact Hr|].
  destruct (candidates_in_bounds ex_f ex_rng ex_clock [0; 1] [1; 0]
              1 (1 / 10) 1 1 ex_self ex_init ex_rng_unit)
    as (_ & _ & _ & _ & _ & _ & Ha & _).
  exact (Ha 2%nat r Hr).
Defined.

(** ** Further properties of the colony script *)

Module ColonyMore.

Import Colony ColonyFacts.

(** *** The population keeps its size *)

Section Sizes.

Variable beehive_population : nat.
Variable rng : nat -> R.
Variable irng : nat -> nat.

Lemma new_bees_length (n : nat) :
  forall d, length (fst (new_bees rng n d)) = n.
Proof.
  induction n as [|n IH]; intros d; cbn [new_bees]; [reflexivity|].
  unfold new_bee, uniform.
  match goal with |- context [new_bees rng n ?k] =>
    specialize (IH k); destruct (new_bees rng n k) as [t d2] end.
  cbn [fst] in *. cbn. now rewrite IH.
Qed.

Lemma employed_phase_length (l : list bee) :
  forall d, length (fst (employed_phase rng l d)) = length l.
Proof.
  induction l as [|y t IH]; intros d; cbn [employed_phase]; [reflexivity|].
  destruct (employed_step rng y d) as [y' d1]. specialize (IH d1).
  destruct (employed_phase rng t d1) as [t' d2]. cbn [fst] in *.
  cbn. now rewrite IH.
Qed.

Lemma onlooker_phase_length (l : list bee) :
  forall ps d,
    length (fst (onlooker_phase beehive_population rng irng l ps d))
    = length l.
Proof.
  induction l as [|y t IH]; intros ps d; cbn [onlooker_phase];
    [reflexivity|].
  destruct ps as [|p ps]; [reflexivity|].
  destruct (onlooker_step beehive_population rng irng y p d) as [y' d1].
  specialize (IH ps d1).
  destruct (onlooker_phase beehive_population rng irng t ps d1) as [t' d2].
  cbn [fst] in *. cbn. now rewrite IH.
Qed.

Lemma scout_step_length (l l' : list bee) (i d d' : nat) :
  scout_step rng l i d = Ok (l', d') -> length l' = length l.
Proof.
  unfold scout_step.
  destruct (nth_error l i) as [y|]; [|intros H; inversion H; now subst].
  destruct (Nat.ltb 100 (abandon_food y));
    [|intros H; inversion H; now subst].
  destruct (min_sol l) as [m|]; [|discriminate]. cbn [bind].
  destruct (scout_candidate rng m d) as [c d1].
  intros H. inversion H; subst. apply set_nth_length.
Qed.

Lemma scout_loop_length (k : nat) :
  forall l l' i d d',
    scout_loop rng k i l d = Ok (l', d') -> length l' = length l.
Proof.
  induction k as [|k IH]; intros l l' i d d'; cbn [scout_loop].
  - intros H. inversion H; now subst.
  - destruct (scout_step rng l i d) as [[l1 d1]|] eqn:E; [|discriminate].
    cbn [bind fst snd]. intros H. apply IH in H.
    apply scout_step_length in E. congruence.
Qed.

Lemma iteration_length (h h' : hive) (d d' : nat) :
  iteration beehive_population rng irng h d = Ok (h', d') ->
  length (bees h') = length (bees h).
Proof.
  intros H. apply iteration_spec in H.
  destruct H as (l & d2 & Hs & Hb & _).
  apply bookkeeping_spec in Hb. destruct Hb as [-> _].
  unfold scout_phase in Hs. apply scout_loop_length in Hs.
  now rewrite Hs, onlooker_phase_length, employed_phase_length.
Qed.

(** X14.  The number of bees is [beehive_population / 2] at the start and after
    every pass through the loop. *)
Theorem population_size_kept (k : nat) :
  forall h d h' d',
    after beehive_population rng irng k h d = Ok (h', d') ->
    length (bees h') = length (bees h) /\
    length (bees (fst (start beehive_population rng 0)))
    = Nat.div beehive_population 2.
Proof.
  intros h d h' d' Ha. split.
  - revert h d Ha. induction k as [|k IH]; intros h d; cbn [after].
    + intros H. inversion H; now subst.
    + destruct (iteration beehive_population rng irng h d) as [[h1 d1]|] eqn:E;
        [|discriminate].
      cbn [bind fst snd]. intros H. apply IH in H.
      apply iteration_length in E. congruence.
  - unfold start.
    pose proof (new_bees_length (colony_size beehive_population) 0) as Hn.
    destruct (new_bees rng (colony_size beehive_population) 0) as [l d1].
    exact Hn.
Qed.

(** *** With no bee the script raises *)

(** X15.  A population of zero or one gives an empty colony, and the first pass
    stops at [min] of the empty dictionary. *)
Theorem empty_colony_raises (fuel : nat) :
  (beehive_population < 2)%nat ->
  script beehive_population rng irng (S fuel) = Some (Raise ValueError).
Proof.
  intros Hp. unfold script, start, colony_size.
  rewrite (Nat.div_small beehive_population 2) by lia.
  reflexivity.
Qed.

(** *** The phases never make a bee worse *)


Lemma replace_or_count_step (y : bee) (p : R * R) :
  kept_or_improved y (replace_or_count y p).
Proof.
  unfold replace_or_count, kept_or_improved.
  destruct (Rlt_dec _ _); cbn; auto.
Qed.

Lemma employed_phase_greedy (l : list bee) :
  forall d, Forall2 kept_or_improved l (fst (employed_phase rng l d)).
Proof.
  induction l as [|y t IH]; intros d; cbn [employed_phase]; [constructor|].
  unfold employed_step, uniform.
  match goal with |- context [employed_phase rng t ?k] =>
    specialize (IH k); destruct (employed_phase rng t k) as [t' d2] end.
  cbn [fst] in *. constructor; [apply replace_or_count_step|exact IH].
Qed.

Lemma onlooker_phase_greedy (l : list bee) :
  forall ps d,
    Forall2 (fun y y' => y' = y \/ kept_or_improved y y') l
      (fst (onlooker_phase beehive_population rng irng l ps d)).
Proof.
  induction l as [|y t IH]; intros ps d; cbn [onlooker_phase];
    [constructor|].
  destruct ps as [|p ps].
  - cbn [fst]. constructor; [now left|].
    clear. induction t; constructor; auto.
  - assert (Hs : fst (onlooker_step beehive_population rng irng y p d) = y \/
                 kept_or_improved y
                   (fst (onlooker_step beehive_population rng irng y p d))).
    { unfold onlooker_step, uniform, randint.
      destruct (selected _ p); cbn [fst];
        [right; apply replace_or_count_step|now left]. }
    destruct (onlooker_step beehive_population rng irng y p d) as [y' d1].
    specialize (IH ps d1).
    destruct (onlooker_phase beehive_population rng irng t ps d1) as [t' d2].
    cbn [fst] in *. now constructor.
Qed.

(** X16.  In the employed phase every bee either takes a strictly better
    candidate, keeping its counter, or keeps its solution and counts one
    more failure.  In the onlooker phase a bee is either left exactly as it
    is, or goes through the same alternative.  So through both phases no
    value goes up and no counter goes down. *)
Theorem greedy_phases (l : list bee) (d : nat) :
  let l1 := fst (employed_phase rng l d) in
  let d1 := snd (employed_phase rng l d) in
  let l2 :=
    fst (onlooker_phase beehive_population rng irng l1 (sol_prob l1) d1) in
  Forall2 kept_or_improved l l1 /\
  Forall2 (fun y y' => y' = y \/ kept_or_improved y y') l1 l2 /\
  Forall2 (fun y y' => solution y' <= solution y /\
                       (abandon_food y <= abandon_food y')%nat) l l1 /\
  Forall2 (fun y y' => solution y' <= solution y /\
                       (abandon_food y <= abandon_food y')%nat) l1 l2.
Proof.
  cbv zeta. split; [apply employed_phase_greedy|].
  split; [apply onlooker_phase_greedy|]. split.
  - eapply Forall2_impl; [|apply employed_phase_greedy].
    intros y y' [[H1 H2]|(H1 & _ & H2)]; split; (lra || lia).
  - eapply Forall2_impl; [|apply onlooker_phase_greedy].
    intros y y' [->|[[H1 H2]|(H1 & _ & H2)]]; split; (lra || lia).
Qed.


End Sizes.

(** *** The scout phase and the counters *)

Section Scouts.

Variable beehive_population : nat.
Variable rng : nat -> R.
Variable irng : nat -> nat.


Lemma scout_loop_idle (k : nat) :
  forall l i d, Forall rested l -> scout_loop rng k i l d = Ok (l, d).
Proof.
  induction k as [|k IH]; intros l i d Hl; cbn [scout_loop]; [reflexivity|].
  unfold scout_step.
  destruct (nth_error l i) as [y|] eqn:En.
  - apply nth_error_In in En.
    pose proof (proj1 (Forall_forall _ _) Hl y En) as Hy.
    unfold rested in Hy. apply Nat.ltb_ge in Hy. rewrite Hy.
    cbn [bind fst snd]. now apply IH.
  - cbn [bind fst snd]. now apply IH.
Qed.

(** X17.  When no counter is above 100 the scout phase returns the population as
    it is and draws no sample. *)
Theorem scout_phase_idle (l : list bee) (d : nat) :
  Forall rested l -> scout_phase rng l d = Ok (l, d).
Proof. intros Hl. now apply scout_loop_idle. Qed.

Lemma scout_step_rests (l l' : list bee) (i d d' : nat) :
  scout_step rng l i d = Ok (l', d') ->
  (forall y, nth_error l' i = Some y -> rested y) /\
  (forall j, j <> i -> nth_error l' j = nth_error l j).
Proof.
  unfold scout_step.
  destruct (nth_error l i) as [y|] eqn:En.
  - destruct (Nat.ltb 100 (abandon_food y)) eqn:Ec.
    + destruct (min_sol l) as [m|]; [|discriminate]. cbn [bind].
      destruct (scout_candidate rng m d) as [c d1].
      intros H. inversion H; subst. split.
      * intros z Hz. rewrite (set_nth_same l i y) in Hz by assumption.
        inversion Hz; subst. unfold rested. cbn. lia.
      * intros j Hj. now apply set_nth_other.
    + intros H. inversion H; subst. split; [|auto].
      intros z Hz. rewrite En in Hz. inversion Hz; subst.
      unfold rested. now apply Nat.ltb_ge.
  - intros H. inversion H; subst. split; [|auto].
    intros z Hz. congruence.
Qed.

Lemma scout_loop_rests (k : nat) :
  forall l l' i d d',
    scout_loop rng k i l d = Ok (l', d') ->
    (forall j y, (j < i)%nat -> nth_error l j = Some y -> rested y) ->
    forall j y, (j < i + k)%nat -> nth_error l' j = Some y -> rested y.
Proof.
  induction k as [|k IH]; intros l l' i d d'; cbn [scout_loop].
  - intros H Hl j y Hj. inversion H; subst.
    apply Hl. lia.
  - destruct (scout_step rng l i d) as [[l1 d1]|] eqn:E; [|discriminate].
    cbn [bind fst snd]. intros H Hl j y Hj.
    apply scout_step_rests in E. destruct E as [E1 E2].
    apply (IH l1 l' (S i) d1 d' H); [|lia].
    intros j' y' Hj' Hn.
    destruct (Nat.eq_dec j' i) as [->|Hne]; [now apply E1|].
    rewrite E2 in Hn by assumption. apply (Hl j'); [lia|exact Hn].
Qed.

(** X18.  After every pass through the loop no counter is above 100. *)
Theorem counters_rested (h h' : hive) (d d' : nat) :
  iteration beehive_population rng irng h d = Ok (h', d') ->
  Forall rested (bees h').
Proof.
  intros H. apply iteration_spec in H.
  destruct H as (l & d2 & Hs & Hb & _).
  apply bookkeeping_spec in Hb. destruct Hb as [-> _].
  unfold scout_phase in Hs.
  pose proof (scout_loop_length rng _ _ _ _ _ _ Hs) as Hlen.
  apply Forall_forall. intros y Hy.
  apply In_nth_error in Hy. destruct Hy as [j Hj].
  eapply (scout_loop_rests _ _ _ 0 _ _ Hs); [|cbn [Nat.add]|exact Hj].
  - intros j' y' Hj'. lia.
  - rewrite <- Hlen. apply nth_error_Some. congruence.
Qed.

End Scouts.

(** *** The weights *)



(** X20.  A bee whose value is at least the share [sum / (beehive_population/2)]
    is passed over by every draw of the range: the onlooker step leaves it
    as it is and uses one sample. *)
Theorem average_bee_passed_over (beehive_population : nat) (rng : nat -> R)
  (irng : nat -> nat) (l : list bee) (y : bee) (d : nat) :
  0 < sum_solutions l -> (0 < beehive_population)%nat ->
  0 <= rng d < 1 ->
  sum_solutions l <= solution y * (INR beehive_population / 2) ->
  onlooker_step beehive_population rng irng y
    (np_div (solution y) (sum_solutions l)) d = (y, S d).
Proof.
  intros Hs Hp [Hu0 Hu1] Hy. unfold onlooker_step, uniform, selected, np_div.
  destruct (Req_dec_T (sum_solutions l) 0); [lra|]. cbn [gt_np].
  assert (Hn : 0 < INR beehive_population / 2).
  { assert (0 < INR beehive_population) by (apply lt_0_INR; lia). lra. }
  set (c := INR beehive_population / 2) in *.
  assert (Hw : 1 / c <= solution y / sum_solutions l).
  { apply Rmult_le_reg_r with (c * sum_solutions l); [nra|].
    replace (1 / c * (c * sum_solutions l)) with (sum_solutions l)
      by (field; lra).
    replace (solution y / sum_solutions l * (c * sum_solutions l))
      with (solution y * c) by (field; lra).
    exact Hy. }
  assert (Hc : 0 < 1 / c) by (apply Rdiv_lt_0_compat; lra).
  destruct (Rlt_dec _ _) as [Hlt|_]; [|reflexivity].
  exfalso. nra.
Qed.

(** *** The bookkeeping *)

Section Books.

Variable beehive_population : nat.
Variable rng : nat -> R.
Variable irng : nat -> nat.


Lemma bookkeeping_books (h h' : hive) (l : list bee) :
  books_kept h -> bookkeeping h l = Ok h' -> books_kept h'.
Proof.
  intros (B1 & B2 & B3). unfold bookkeeping.
  destruct (min_sol l) as [m|]; [|discriminate]. cbn [bind].
  destruct (Rlt_dec (solution m) (best_value h)) as [Hlt|Hge];
    intros H; inversion H; subst; unfold books_kept; cbn.
  - split; [lra|]. split; [lra|]. intros E. lra.
  - split; [lra|]. split; [lra|]. exact B3.
Qed.

Lemma after_books (k : nat) :
  forall h d h' d',
    books_kept h ->
    after beehive_population rng irng k h d = Ok (h', d') ->
    books_kept h' /\ iter_count h' = (iter_count h + k)%nat.
Proof.
  induction k as [|k IH]; intros h d h' d' Hb; cbn [after].
  - intros H. inversion H; subst. split; [exact Hb|lia].
  - destruct (iteration beehive_population rng irng h d) as [[h1 d1]|] eqn:E;
      [|discriminate].
    cbn [bind fst snd]. intros H.
    apply iteration_spec in E. destruct E as (l & d2 & _ & Hk & _).
    pose proof (bookkeeping_books h h1 l Hb Hk) as Hb1.
    apply bookkeeping_spec in Hk. destruct Hk as (_ & Hc & _).
    destruct (IH h1 d1 h' d' Hb1 H) as [H1 H2]. split; [exact H1|lia].
Qed.

(** X21.  From the start of the script, after [k] passes: the difference
    [old_best_value - best_value] is positive, the best value is at most
    [10], the best point is the initial [(0, 0)] for as long as the best
    value is [10], and the counter of iterations, which starts at one,
    stands at [k + 1]. *)
Theorem books_of_the_script (k : nat) (h' : hive) (d' : nat) :
  after beehive_population rng irng k
    (fst (start beehive_population rng 0))
    (snd (start beehive_population rng 0)) = Ok (h', d') ->
  0 < old_best_value h' - best_value h' /\
  best_value h' <= 10 /\
  (best_value h' = 10 -> best_sol h' = (0, 0)) /\
  iter_count h' = S k.
Proof.
  intros H. apply after_books in H.
  - destruct H as [(B1 & B2 & B3) Hc].
    repeat split; auto; try lra.
    rewrite Hc. unfold start.
    destruct (new_bees rng (colony_size beehive_population) 0). reflexivity.
  - unfold start, books_kept.
    destruct (new_bees rng (colony_size beehive_population) 0). cbn.
    repeat split; auto; lra.
Qed.

(** X22.  After a pass the global best is at most the value of every bee. *)
Theorem best_below_population (h h' : hive) (d d' : nat) (y : bee) :
  iteration beehive_population rng irng h d = Ok (h', d') ->
  In y (bees h') -> best_value h' <= solution y.
Proof.
  intros H Hy. apply iteration_spec in H.
  destruct H as (l & d2 & _ & Hb & _).
  apply bookkeeping_spec in Hb. destruct Hb as (Hl & _ & _ & Hm & _).
  apply Hm. now rewrite <- Hl.
Qed.

End Books.

End ColonyMore.

(** ** Further properties of the annealing optimizer *)

Module AnnealingMore.

(** *** The constructor *)

(** X1.  An empty list of bounds stops the constructor at [min] with a
    [ValueError]; a budget of zero stops it with a [ZeroDivisionError], at
    [maxIter**(-1)] if the division [Tf/Ti] did not raise it before. *)
Theorem init_errors :
  (forall yBounds Ti Tf maxIter maxTime,
      __init__ [] yBounds Ti Tf maxIter maxTime = Raise ValueError) /\
  (forall x xt Ti Tf maxIter maxTime,
      __init__ (x :: xt) [] Ti Tf maxIter maxTime = Raise ValueError) /\
  (forall x xt y yt Ti Tf maxTime,
      __init__ (x :: xt) (y :: yt) Ti Tf 0 maxTime = Raise ZeroDivisionError).
Proof.
  split; [reflexivity|]. split; [reflexivity|].
  intros x xt y yt Ti Tf maxTime. unfold __init__, py_div, py_pow. cbn [py_min py_max bind].
  destruct (Req_dec_T Ti 0); [reflexivity|]. cbn [bind].
  destruct (Rlt_dec 0 0); [lra|].
  destruct (Req_dec_T 0 0); [|lra].
  destruct (Rlt_dec (-1) 0); [reflexivity|lra].
Qed.

Lemma fold_Rmin_spec (t : list R) :
  forall x,
    In (fold_left Rmin t x) (x :: t) /\
    forall z, In z (x :: t) -> fold_left Rmin t x <= z.
Proof.
  induction t as [|y t IH]; intros x; cbn [fold_left].
  - split; [now left|]. intros z [<-|[]]. lra.
  - destruct (IH (Rmin x y)) as [Hin Hle]. split.
    + destruct Hin as [Hin|Hin]; [|right; now right].
      rewrite <- Hin. unfold Rmin. destruct (Rle_dec x y);
        [now left|right; now left].
    + intros z Hz.
      assert (Hm : fold_left Rmin t (Rmin x y) <= Rmin x y)
        by (apply Hle; now left).
      destruct Hz as [<-|[<-|Hz]].
      * pose proof (Rmin_l x y). lra.
      * pose proof (Rmin_r x y). lra.
      * apply Hle. now right.
Qed.

Lemma fold_Rmax_spec (t : list R) :
  forall x,
    In (fold_left Rmax t x) (x :: t) /\
    forall z, In z (x :: t) -> z <= fold_left Rmax t x.
Proof.
  induction t as [|y t IH]; intros x; cbn [fold_left].
  - split; [now left|]. intros z [<-|[]]. lra.
  - destruct (IH (Rmax x y)) as [Hin Hle]. split.
    + destruct Hin as [Hin|Hin]; [|right; now right].
      rewrite <- Hin. unfold Rmax. destruct (Rle_dec x y);
        [right; now left|now left].
    + intros z Hz.
      assert (Hm : Rmax x y <= fold_left Rmax t (Rmax x y))
        by (apply Hle; now left).
      destruct Hz as [<-|[<-|Hz]].
      * pose proof (Rmax_l x y). lra.
      * pose proof (Rmax_r x y). lra.
      * apply Hle. now right.
Qed.

Lemma py_min_permutation (l l' : list R) :
  Permutation l l' -> py_min l = py_min l'.
Proof.
  intros Hp. destruct l as [|x t], l' as [|x' t'].
  - reflexivity.
  - apply Permutation_nil in Hp. discriminate.
  - apply Permutation_sym, Permutation_nil in Hp. discriminate.
  - cbn. f_equal.
    destruct (fold_Rmin_spec t x) as [H1 H2].
    destruct (fold_Rmin_spec t' x') as [H1' H2'].
    apply Rle_antisym.
    + apply H2. eapply Permutation_in; [apply Permutation_sym|]; eauto.
    + apply H2'. eapply Permutation_in; eauto.
Qed.

Lemma py_max_permutation (l l' : list R) :
  Permutation l l' -> py_max l = py_max l'.
Proof.
  intros Hp. destruct l as [|x t], l' as [|x' t'].
  - reflexivity.
  - apply Permutation_nil in Hp. discriminate.
  - apply Permutation_sym, Permutation_nil in Hp. discriminate.
  - cbn. f_equal.
    destruct (fold_Rmax_spec t x) as [H1 H2].
    destruct (fold_Rmax_spec t' x') as [H1' H2'].
    apply Rle_antisym.
    + apply H2'. eapply Permutation_in; eauto.
    + apply H2. eapply Permutation_in; [apply Permutation_sym|]; eauto.
Qed.

(** X2.  The constructor does not see the order in which the bounds are given:
    lists that are rearrangements of each other give the same object, or
    the same exception. *)
Theorem init_order_free (xBounds xBounds' yBounds yBounds' : list R)
  (Ti Tf maxIter maxTime : R) :
  Permutation xBounds xBounds' -> Permutation yBounds yBounds' ->
  __init__ xBounds yBounds Ti Tf maxIter maxTime =
  __init__ xBounds' yBounds' Ti Tf maxIter maxTime.
Proof.
  intros Hx Hy. unfold __init__.
  now rewrite (py_min_permutation _ _ Hx), (py_max_permutation _ _ Hx),
    (py_min_permutation _ _ Hy), (py_max_permutation _ _ Hy).
Qed.

(** *** The Metropolis test at its edges *)

(** X4.  A candidate worth exactly the incumbent is always taken, at any real
    temperature other than zero. *)
Theorem tie_is_accepted (rng : nat -> R) (st : state) (d : nat)
  (s : R * R) (t : R) :
  new_solution st = Some s -> new_value st = Some (best_value st) ->
  T st = PFloat t -> t <> 0 -> rng d < 1 ->
  _find_best rng st d = Ok (accept st s (best_value st), S d).
Proof.
  intros Hs Hv HT Ht Hr. unfold _find_best. rewrite Hs, Hv, HT.
  destruct (Rlt_dec _ _) as [Hlt|_]; [lra|].
  unfold np_div. destruct (Req_dec_T t 0); [contradiction|].
  cbn [np_exp lt_np].
  replace ((best_value st - best_value st) / t) with 0 by (field; exact Ht).
  rewrite exp_0. destruct (Rlt_dec (rng d) 1); [reflexivity|lra].
Qed.


(** *** What the traces hold *)

Section Traces.

Variable f : R -> R -> R.
Variable rng : nat -> R.
Variable clock : nat -> R.
Variable self : SA.

Lemma initialize_coherent (d : nat) :
  coherent f (fst (_initialize f rng self d)).
Proof. reflexivity. Qed.

Lemma iteration_coherent (st st' : state) (d d' : nat) :
  coherent f st -> iteration f rng self st d = Ok (st', d') ->
  coherent f st'.
Proof.
  unfold coherent, iteration, _neighbourhood_search, uniform, _find_best.
  cbn [new_solution new_value best_value best_solution T].
  intros Hc.
  destruct (Rlt_dec _ _).
  - cbn. intros H. inversion H; subst. reflexivity.
  - destruct (T st); [|discriminate].
    destruct (lt_np _ _); cbn; intros H; inversion H; subst; cbn;
      [reflexivity|exact Hc].
Qed.

Lemma algorithm_loop_last (fuel : nat) :
  forall st d vals n r,
    coherent f st -> last vals 0 = best_value st -> vals <> [] ->
    algorithm_loop f rng fuel self st d vals n = Some (Ok r) ->
    coherent f (final r) /\
    last (best_values r) 0 = best_value (final r).
Proof.
  induction fuel as [|k IH]; intros st d vals n r Hc Hl Hne;
    cbn [algorithm_loop]; [discriminate|].
  destruct (T st); [|discriminate].
  destruct (Rlt_dec _ _).
  - destruct (iteration f rng self st d) as [[st' d']|] eqn:E; [|discriminate].
    apply IH.
    + eapply iteration_coherent; eauto.
    + now rewrite last_last.
    + intros Hn. apply app_eq_nil in Hn. destruct Hn. discriminate.
  - intros H. inversion H; subst. cbn. auto.
Qed.

Lemma time_loop_last (fuel : nat) :
  forall st d c t0 te vals times n r,
    coherent f st -> last vals 0 = best_value st ->
    time_loop f rng clock fuel self st d c t0 te vals times n = Some (Ok r) ->
    coherent f (t_final r) /\
    last (t_values r) 0 = best_value (t_final r).
Proof.
  induction fuel as [|k IH]; intros st d c t0 te vals times n r Hc Hl;
    cbn [time_loop]; [discriminate|].
  destruct (Rlt_dec _ _).
  - destruct (iteration f rng self st d) as [[st' d']|] eqn:E; [|discriminate].
    apply IH.
    + eapply iteration_coherent; eauto.
    + now rewrite last_last.
  - intros H. inversion H; subst. cbn. auto.
Qed.

(** X6.  In both run modes the last value of the trace is the value of the
    incumbent the run ends with, and that value is the objective at the
    incumbent point. *)
Theorem trace_ends_at_incumbent :
  (forall fuel r,
      algorithm f rng fuel self = Some (Ok r) ->
      last (best_values r) 0 = best_value (final r) /\
      best_value (final r)
      = f (fst (best_solution (final r))) (snd (best_solution (final r)))) /\
  (forall fuel r,
      time_algorithm f rng clock fuel self = Some (Ok r) ->
      last (t_values r) 0 = best_value (t_final r) /\
      best_value (t_final r)
      = f (fst (best_solution (t_final r)))
          (snd (best_solution (t_final r)))).
Proof.
  split; intros fuel r H.
  - unfold algorithm, _initialize, uniform in H.
    apply algorithm_loop_last in H;
      [destruct H; split; assumption | reflexivity | reflexivity
       | discriminate].
  - unfold time_algorithm, _initialize, uniform in H.
    apply time_loop_last in H;
      [destruct H; split; assumption | reflexivity | reflexivity].
Qed.

Hypothesis unit_samples : forall k, 0 <= rng k < 1.
Hypothesis x_ordered : xlb self <= xub self.
Hypothesis y_ordered : ylb self <= yub self.

Lemma state_box_value (st : state) :
  box_inv self st -> coherent f st -> box_value f self (best_value st).
Proof.
  intros [Hb _] Hc. exists (best_solution st). split; assumption.
Qed.

Lemma algorithm_loop_values (fuel : nat) :
  forall st d vals n r,
    box_inv self st -> coherent f st -> Forall (box_value f self) vals ->
    algorithm_loop f rng fuel self st d vals n = Some (Ok r) ->
    Forall (box_value f self) (best_values r).
Proof.
  induction fuel as [|k IH]; intros st d vals n r Hb Hc Hv;
    cbn [algorithm_loop]; [discriminate|].
  destruct (T st); [|discriminate].
  destruct (Rlt_dec _ _).
  - destruct (iteration f rng self st d) as [[st' d']|] eqn:E; [|discriminate].
    assert (Hb' : box_inv self st')
      by (eapply (iteration_in_box f rng self); eauto).
    assert (Hc' : coherent f st') by (eapply iteration_coherent; eauto).
    apply IH; auto.
    apply Forall_app. split; [exact Hv|].
    constructor; [now apply state_box_value|constructor].
  - intros H. inversion H; subst. exact Hv.
Qed.

Lemma algorithm_values :
  forall fuel r,
    algorithm f rng fuel self = Some (Ok r) ->
    Forall (box_value f self) (best_values r).
Proof.
  intros fuel r. unfold algorithm.
  pose proof (initialize_in_box f rng self unit_samples x_ordered y_ordered 0)
    as Hb.
  pose proof (initialize_coherent 0) as Hc.
  destruct (_initialize f rng self 0) as [st d]. cbn [fst] in *.
  apply algorithm_loop_values; auto.
  constructor; [now apply state_box_value|constructor].
Qed.

End Traces.

(** X7.  Every value of the trace of [algorithm] is the objective at some point
    of the box; a bound of the objective on the box is a bound of the
    trace. *)
Theorem trace_of_box_values (f : R -> R -> R) (rng : nat -> R)
  (xBounds yBounds : list R) (Ti Tf maxIter maxTime : R) (self : SA)
  (fuel : nat) (r : result) :
  __init__ xBounds yBounds Ti Tf maxIter maxTime = Ok self ->
  (forall k, 0 <= rng k < 1) ->
  algorithm f rng fuel self = Some (Ok r) ->
  Forall (box_value f self) (best_values r) /\
  forall lo hi,
    (forall p, in_box self p -> lo <= f (fst p) (snd p) <= hi) ->
    Forall (fun v => lo <= v <= hi) (best_values r).
Proof.
  intros Hi Hu Hr.
  destruct (init_fields _ _ _ _ _ _ _ Hi) as (X1 & X2 & Y1 & Y2 & _).
  assert (Hx := py_min_le_max _ _ _ X1 X2).
  assert (Hy := py_min_le_max _ _ _ Y1 Y2).
  pose proof (algorithm_values f rng self Hu Hx Hy fuel r Hr) as Hv.
  split; [exact Hv|].
  intros lo hi Hb. eapply Forall_impl; [|exact Hv].
  intros v (p & Hp & ->). now apply Hb.
Qed.

(** *** The run by time *)

Section Timed.

Variable f : R -> R -> R.
Variable rng : nat -> R.
Variable clock : nat -> R.
Variable self : SA.

Lemma time_loop_stop (fuel : nat) :
  forall st d c t0 te vals times n r,
    time_loop f rng clock fuel self st d c t0 te vals times n = Some (Ok r) ->
    exists m,
      t_nIter r = (n + m)%nat /\
      t_times r = times ++ map (fun i => clock (c + i)%nat - t0) (seq 0 m) /\
      (m = 0%nat -> ~ te < maxTime self) /\
      ((0 < m)%nat ->
       te < maxTime self /\
       ~ clock (c + m - 1)%nat - t0 < maxTime self) /\
      (forall i, (S i < m)%nat -> clock (c + i)%nat - t0 < maxTime self).
Proof.
  induction fuel as [|k IH]; intros st d c t0 te vals times n r;
    cbn [time_loop]; [discriminate|].
  destruct (Rlt_dec te (maxTime self)) as [Hlt|Hge].
  - destruct (iteration f rng self st d) as [[st' d']|]; [|discriminate].
    intros H. apply IH in H.
    destruct H as (m & H1 & H2 & H3 & H4 & H5).
    exists (S m). split; [lia|]. split; [|split; [|split]].
    + rewrite H2, <- app_assoc. f_equal. cbn [seq map app].
      rewrite Nat.add_0_r. f_equal.
      rewrite <- seq_shift, map_map. apply map_ext.
      intros i. now rewrite Nat.add_succ_r.
    + lia.
    + intros _. split; [exact Hlt|].
      destruct m as [|m].
      * replace (c + 1 - 1)%nat with c by lia. now apply H3.
      * replace (c + S (S m) - 1)%nat with (S c + S m - 1)%nat by lia.
        apply H4. lia.
    + intros [|i] Hi.
      * rewrite Nat.add_0_r. apply H4. lia.
      * rewrite Nat.add_succ_r. apply (H5 i). lia.
  - intros H. inversion H; subst. exists 0%nat. cbn [t_nIter t_times seq map].
    split; [lia|]. split; [now rewrite app_nil_r|].
    split; [auto|]. split; intros; lia.
Qed.

Lemma time_algorithm_stop_spec (fuel : nat) (r : timed_result) :
  time_algorithm f rng clock fuel self = Some (Ok r) ->
  t_times r
  = map (fun i => clock (S i) - clock 0%nat) (seq 0 (t_nIter r)) /\
  (t_nIter r = 0%nat -> maxTime self <= 0) /\
  ((0 < t_nIter r)%nat ->
   0 < maxTime self /\
   maxTime self <= clock (t_nIter r) - clock 0%nat) /\
  (forall i, (1 <= i < t_nIter r)%nat ->
     clock i - clock 0%nat < maxTime self).
Proof.
  unfold time_algorithm. destruct (_initialize f rng self 0) as [st d].
  intros H. apply time_loop_stop in H.
  destruct H as (m & H1 & H2 & H3 & H4 & H5).
  cbn [Nat.add app] in H1, H2. rewrite H1.
  split; [exact H2|]. split; [|split].
  - intros Hm. specialize (H3 Hm). lra.
  - intros Hm. destruct (H4 Hm) as [Ha Hb]. split; [exact Ha|].
    replace (1 + m - 1)%nat with m in Hb by lia. lra.
  - intros i Hi. destruct i as [|i]; [lia|].
    apply (H5 i). lia.
Qed.

(** X8.  The run by time stops at the first clock reading at which the elapsed
    time is no longer below [maxTime]: it records the elapsed time of each
    reading, all of them below [maxTime] but the last, which is not; with
    [maxTime <= 0] it makes no pass at all. *)
Theorem time_algorithm_stops (fuel : nat) (r : timed_result) :
  time_algorithm f rng clock fuel self = Some (Ok r) ->
  t_times r
  = map (fun i => clock (S i) - clock 0%nat) (seq 0 (t_nIter r)) /\
  (t_nIter r = 0%nat -> maxTime self <= 0) /\
  ((0 < t_nIter r)%nat ->
   0 < maxTime self /\
   maxTime self <= clock (t_nIter r) - clock 0%nat) /\
  (forall i, (1 <= i < t_nIter r)%nat ->
     clock i - clock 0%nat < maxTime self).
Proof. apply time_algorithm_stop_spec. Qed.



End Timed.

(** *** A negative final temperature *)



(** *** The number of passes of an object built on valid temperatures *)



(** *** The practice script and the class *)

Section Script.

Variable rng : nat -> R.
Variable self : SA.

Hypothesis x_low : xlb self = Practice.lb.
Hypothesis x_high : xub self = Practice.ub.
Hypothesis y_low : ylb self = Practice.lb.
Hypothesis y_high : yub self = Practice.ub.



End Script.





(** *** The driver *)


End AnnealingMore.

(** ** The further properties on the worked runs *)

Module MoreRuns.

Import AnnealingMore.

Lemma init_order_free_witness :
  __init__ [0; 1] [1; 0] 1 (1 / 10) 1 1
  = __init__ [1; 0] [0; 1] 1 (1 / 10) 1 1.
Proof. apply init_order_free; apply perm_swap. Defined.

Lemma tie_is_accepted_witness :
  _find_best ex_rng ex_tied 4
  = Ok (accept ex_tied (1 / 2, - (1 / 2)) 0, 5%nat).
Proof.
  apply (tie_is_accepted ex_rng ex_tied 4 (1 / 2, - (1 / 2)) 1);
    [reflexivity | reflexivity | reflexivity | lra | cbn; lra].
Defined.


Lemma trace_ends_at_incumbent_witness :
  exists r,
    algorithm ex_f ex_rng 2 ex_self = Some (Ok r) /\
    last (best_values r) 0 = best_value (final r).
Proof.
  destruct ex_algorithm as (r & Hr & _). exists r. split; [exact Hr|].
  destruct (trace_ends_at_incumbent ex_f ex_rng ex_clock ex_self)
    as [H _].
  exact (proj1 (H 2%nat r Hr)).
Defined.

Lemma trace_of_box_values_witness :
  exists r,
    algorithm ex_f ex_rng 2 ex_self = Some (Ok r) /\
    Forall (box_value ex_f ex_self) (best_values r).
Proof.
  destruct ex_algorithm as (r & Hr & _). exists r. split; [exact Hr|].
  exact (proj1 (trace_of_box_values ex_f ex_rng [0; 1] [1; 0] 1 (1 / 10) 1 1
                  ex_self 2 r ex_init ex_rng_unit Hr)).
Defined.

Lemma time_algorithm_stops_witness :
  exists r,
    time_algorithm ex_f ex_rng ex_clock 2 ex_self = Some (Ok r) /\
    t_times r
    = map (fun i => ex_clock (S i) - ex_clock 0) (seq 0 (t_nIter r)).
Proof.
  destruct ex_time_algorithm as (r & Hr). exists r. split; [exact Hr|].
  exact (proj1 (time_algorithm_stops ex_f ex_rng ex_clock ex_self 2 r Hr)).
Defined.





Import Colony ColonyFacts ColonyMore.

Lemma start_stuck (beehive_population : nat) :
  (2 <= beehive_population)%nat ->
  stuck_hive (fst (start beehive_population ex_half 0)).
Proof.
  intros Hp. unfold start.
  destruct (new_bees_stuck (colony_size beehive_population) 0) as [H1 H2].
  fold ex_half in H1, H2.
  destruct (new_bees ex_half (colony_size beehive_population) 0) as [l d].
  cbn [fst] in *. unfold stuck_hive. cbn [bees best_value].
  split; [exact H1|]. split; [|reflexivity].
  intros ->. cbn [length] in H2. unfold colony_size in H2.
  assert (1 <= beehive_population / 2)%nat.
  { apply Nat.div_le_lower_bound; lia. }
  lia.
Qed.

(** The first pass of the script with its 100 bees, every sample at
    [1/2]. *)
Lemma ex_first_pass :
  exists h' d',
    after 100 ex_half ex_irng 1 (fst (start 100 ex_half 0))
      (snd (start 100 ex_half 0)) = Ok (h', d').
Proof.
  destruct (iteration_stuck 100 ex_irng (fst (start 100 ex_half 0))
              (snd (start 100 ex_half 0)) (start_stuck 100 ltac:(lia)))
    as (h' & d' & H & _).
  exists h', d'. cbn [after]. fold ex_half in H. now rewrite H.
Qed.

Lemma population_size_kept_witness :
  exists h' d',
    after 100 ex_half ex_irng 1 (fst (start 100 ex_half 0))
      (snd (start 100 ex_half 0)) = Ok (h', d') /\
    length (bees h') = length (bees (fst (start 100 ex_half 0))) /\
    length (bees (fst (start 100 ex_half 0))) = Nat.div 100 2.
Proof.
  destruct ex_first_pass as (h' & d' & H). exists h', d'.
  split; [exact H|].
  exact (population_size_kept 100 ex_half ex_irng 1 _ _ h' d' H).
Defined.

Lemma empty_colony_raises_witness :
  script 1 ex_half ex_irng 1 = Some (Raise ValueError).
Proof. apply empty_colony_raises. lia. Defined.

Lemma scout_phase_idle_witness :
  scout_phase ex_half ex_zero 0 = Ok (ex_zero, 0%nat).
Proof.
  apply scout_phase_idle. unfold ex_zero, rested.
  repeat constructor; cbn; lia.
Defined.

Lemma ex_iteration :
  exists h' d', iteration 2 ex_half ex_irng ex_quiet 0 = Ok (h', d').
Proof.
  destruct ex_loop as (h' & d' & H). cbn [loop] in H.
  destruct (iteration 2 ex_half ex_irng ex_quiet 0) as [[h1 d1]|];
    [eauto|discriminate].
Qed.

Lemma counters_rested_witness :
  exists h' d',
    iteration 2 ex_half ex_irng ex_quiet 0 = Ok (h', d') /\
    Forall rested (bees h').
Proof.
  destruct ex_iteration as (h' & d' & H). exists h', d'.
  split; [exact H|].
  exact (counters_rested 2 ex_half ex_irng ex_quiet h' 0 d' H).
Defined.

Lemma ex_hive_sum : sum_solutions (bees ex_hive) = 1.
Proof. unfold ex_hive, ex_A, ex_B, sum_solutions. cbn. lra. Qed.


Lemma average_bee_passed_over_witness :
  onlooker_step 4 ex_half ex_irng ex_B
    (np_div (solution ex_B) (sum_solutions (bees ex_hive))) 0
  = (ex_B, 1%nat).
Proof.
  apply average_bee_passed_over.
  - rewrite ex_hive_sum. lra.
  - lia.
  - unfold ex_half. lra.
  - rewrite ex_hive_sum. unfold ex_B. cbn. lra.
Defined.

Lemma books_of_the_script_witness :
  exists h' d',
    after 100 ex_half ex_irng 1 (fst (start 100 ex_half 0))
      (snd (start 100 ex_half 0)) = Ok (h', d') /\
    0 < old_best_value h' - best_value h' /\
    best_value h' <= 10 /\ iter_count h' = 2%nat.
Proof.
  destruct ex_first_pass as (h' & d' & H). exists h', d'.
  split; [exact H|].
  destruct (books_of_the_script 100 ex_half ex_irng 1 h' d' H)
    as (H1 & H2 & _ & H3).
  repeat split; assumption.
Defined.

Lemma best_below_population_witness :
  exists h' d' y,
    iteration 2 ex_half ex_irng ex_quiet 0 = Ok (h', d') /\
    In y (bees h') /\ best_value h' <= solution y.
Proof.
  destruct ex_iteration as (h' & d' & H).
  pose proof (iteration_length 2 ex_half ex_irng ex_quiet h' 0 d' H) as Hl.
  assert (Hex : exists y, In y (bees h')).
  { destruct (bees h') as [|y t]; [discriminate|]. exists y. now left. }
  destruct Hex as [y Hy]. exists h', d', y.
  split; [exact H|]. split; [exact Hy|].
  exact (best_below_population 2 ex_half ex_irng ex_quiet h' 0 d' y H Hy).
Defined.

End MoreRuns.

(** ** Who is reselected in the selection phase *)

Module Reselection.

Import Colony ColonyFacts ColonyMore.

(** The weight the phase keeps for the bee of a key. *)
Lemma sol_prob_nth (l : list bee) (i : nat) (y : bee) :
  nth_error l i = Some y ->
  nth_error (sol_prob l) i = Some (np_div (solution y) (sum_solutions l)).
Proof.
  intros H. unfold sol_prob.
  exact (map_nth_error (fun z => np_div (solution z) (sum_solutions l)) i l H).
Qed.

(** The onlooker phase treats the bee of every key by [onlooker_step], with
    the weight of that key. *)
Lemma onlooker_phase_nth (beehive_population : nat) (rng : nat -> R)
  (irng : nat -> nat) (l : list bee) :
  forall ps d i y p,
    nth_error l i = Some y -> nth_error ps i = Some p ->
    exists d',
      nth_error (fst (onlooker_phase beehive_population rng irng l ps d)) i
      = Some (fst (onlooker_step beehive_population rng irng y p d')).
Proof.
  induction l as [|z t IH]; intros ps d i y p Hy Hp.
  - destruct i; discriminate.
  - destruct ps as [|q ps]; [destruct i; discriminate|].
    cbn [onlooker_phase].
    destruct i as [|i]; cbn [nth_error] in Hy, Hp.
    + inversion Hy; inversion Hp; subst. exists d.
      destruct (onlooker_step beehive_population rng irng y p d) as [y' d1].
      destruct (onlooker_phase beehive_population rng irng t ps d1).
      reflexivity.
    + destruct (onlooker_step beehive_population rng irng z q d) as [z' d1].
      destruct (IH ps d1 i y p Hy Hp) as [d' Hd].
      exists d'.
      destruct (onlooker_phase beehive_population rng irng t ps d1).
      exact Hd.
Qed.

(** A step either passes the bee over, with one draw, or reselects it, with
    nine. *)
Lemma onlooker_step_cases (beehive_population : nat) (rng : nat -> R)
  (irng : nat -> nat) (y : bee) (p : npfloat) (d : nat) :
  (selected (0 + (1 / (INR beehive_population / 2) - 0) * rng d) p = false /\
   onlooker_step beehive_population rng irng y p d = (y, S d)) \/
  (selected (0 + (1 / (INR beehive_population / 2) - 0) * rng d) p = true /\
   snd (onlooker_step beehive_population rng irng y p d) = (9 + d)%nat).
Proof.
  unfold onlooker_step, uniform, randint.
  destruct (selected _ p); [right|left]; split; reflexivity.
Qed.

Lemma passed_over_iff (beehive_population : nat) (rng : nat -> R)
  (irng : nat -> nat) (y : bee) (p : npfloat) (d : nat) :
  onlooker_step beehive_population rng irng y p d = (y, S d) <->
  selected (0 + (1 / (INR beehive_population / 2) - 0) * rng d) p = false.
Proof.
  destruct (onlooker_step_cases beehive_population rng irng y p d)
    as [[H1 H2]|[H1 H2]]; split; intros H; auto.
  - rewrite H in H2. cbn in H2. lia.
  - congruence.
Qed.

(** A weight at or above the top of the range of draws is above every
    draw. *)
Lemma top_weight_passed (c u w : R) :
  0 < c -> 0 <= u < 1 -> c <= w ->
  selected (0 + (c - 0) * u) (Fin w) = false.
Proof.
  intros Hc [Hu0 Hu1] Hw. unfold selected. cbn [gt_np].
  destruct (Rlt_dec _ _) as [Hlt|_]; [|reflexivity].
  exfalso. nra.
Qed.

Lemma start_length (beehive_population : nat) (rng : nat -> R) (d : nat) :
  length (bees (fst (start beehive_population rng d)))
  = Nat.div beehive_population 2.
Proof.
  unfold start.
  pose proof (new_bees_length rng (colony_size beehive_population) d) as Hn.
  destruct (new_bees rng (colony_size beehive_population) d) as [l d1].
  exact Hn.
Qed.

Lemma after_length (beehive_population : nat) (rng : nat -> R)
  (irng : nat -> nat) (k : nat) :
  forall h d h' d',
    after beehive_population rng irng k h d = Ok (h', d') ->
    length (bees h') = length (bees h).
Proof.
  induction k as [|k IH]; intros h d h' d'; cbn [after].
  - intros H. inversion H; now subst.
  - destruct (iteration beehive_population rng irng h d) as [[h1 d1]|] eqn:E;
      [|discriminate].
    cbn [bind fst snd]. intros H. apply IH in H.
    apply iteration_length in E. congruence.
Qed.

(** C5, as the code has it.  In every iteration of the script the
    selection phase gives each bee the weight [value / sum] of its key and
    treats it by the onlooker step with that weight.  Of two bees, the one
    with the lower value is reselected by every draw that reselects the
    other: it is at least as likely to be reselected.  It is reselected by
    strictly more draws exactly when its own weight is below the top
    [1/(beehive_population/2)] of the range of draws; when its weight
    reaches that top, neither bee is ever reselected. *)
Theorem reselection_order (beehive_population : nat) (rng : nat -> R)
  (irng : nat -> nat) (k : nat) (h : hive) (d : nat) (i j : nat)
  (y1 y2 : bee) :
  after beehive_population rng irng k
    (fst (start beehive_population rng 0))
    (snd (start beehive_population rng 0)) = Ok (h, d) ->
  let l := fst (employed_phase rng (bees h) d) in
  let c := 1 / (INR beehive_population / 2) in
  nth_error l i = Some y1 -> nth_error l j = Some y2 ->
  solution y1 < solution y2 ->
  exists w1 w2,
    w1 = solution y1 / sum_solutions l /\
    w2 = solution y2 / sum_solutions l /\
    nth_error (sol_prob l) i = Some (Fin w1) /\
    nth_error (sol_prob l) j = Some (Fin w2) /\
    (forall d0, exists d1 d2,
        nth_error
          (fst (onlooker_phase beehive_population rng irng l (sol_prob l) d0))
          i
        = Some (fst (onlooker_step beehive_population rng irng y1 (Fin w1) d1))
        /\
        nth_error
          (fst (onlooker_phase beehive_population rng irng l (sol_prob l) d0))
          j
        = Some (fst (onlooker_step beehive_population rng irng y2 (Fin w2) d2)))
    /\
    (forall rng' irng' d1 d2,
        rng' d1 = rng' d2 ->
        onlooker_step beehive_population rng' irng' y1 (Fin w1) d1
        = (y1, S d1) ->
        onlooker_step beehive_population rng' irng' y2 (Fin w2) d2
        = (y2, S d2)) /\
    (w1 < c ->
     exists u, 0 <= u < 1 /\
       forall rng' irng' d1 d2,
         rng' d1 = u -> rng' d2 = u ->
         snd (onlooker_step beehive_population rng' irng' y1 (Fin w1) d1)
         = (9 + d1)%nat /\
         onlooker_step beehive_population rng' irng' y2 (Fin w2) d2
         = (y2, S d2)) /\
    (c <= w1 ->
     forall rng' irng' d', 0 <= rng' d' < 1 ->
       onlooker_step beehive_population rng' irng' y1 (Fin w1) d'
       = (y1, S d') /\
       onlooker_step beehive_population rng' irng' y2 (Fin w2) d'
       = (y2, S d')).
Proof.
  intros Ha l c H1 H2 Hlt.
  assert (Hl : Forall nonneg l).
  { apply employed_phase_nonneg.
    eapply after_nonneg; [|exact Ha]. apply start_nonneg. }
  assert (I1 : In y1 l) by (eapply nth_error_In; eauto).
  assert (I2 : In y2 l) by (eapply nth_error_In; eauto).
  destruct (sum_solutions_bounds l Hl) as [_ Hb].
  pose proof (Hb y2 I2) as Hb2.
  pose proof (proj1 (Forall_forall _ _) Hl y1 I1) as Hn1.
  unfold nonneg in Hn1.
  assert (Hs : 0 < sum_solutions l) by lra.
  assert (Hp : (0 < beehive_population)%nat).
  { assert (Hlen : length l = Nat.div beehive_population 2).
    { unfold l. rewrite employed_phase_length.
      rewrite (after_length _ _ _ _ _ _ _ _ Ha). apply start_length. }
    destruct beehive_population; [|lia].
    cbn in Hlen. destruct l; [destruct i; discriminate|discriminate]. }
  assert (Hc : 0 < c).
  { unfold c. assert (0 < INR beehive_population) by (apply lt_0_INR; lia).
    apply Rdiv_lt_0_compat; lra. }
  assert (E1 : np_div (solution y1) (sum_solutions l)
               = Fin (solution y1 / sum_solutions l)).
  { unfold np_div. destruct (Req_dec_T (sum_solutions l) 0); [lra|].
    reflexivity. }
  assert (E2 : np_div (solution y2) (sum_solutions l)
               = Fin (solution y2 / sum_solutions l)).
  { unfold np_div. destruct (Req_dec_T (sum_solutions l) 0); [lra|].
    reflexivity. }
  pose proof (sol_prob_nth l i y1 H1) as P1. rewrite E1 in P1.
  pose proof (sol_prob_nth l j y2 H2) as P2. rewrite E2 in P2.
  exists (solution y1 / sum_solutions l), (solution y2 / sum_solutions l).
  split; [reflexivity|]. split; [reflexivity|].
  split; [exact P1|]. split; [exact P2|].
  split; [|split; [|split]].
  - intros d0.
    destruct (onlooker_phase_nth beehive_population rng irng l (sol_prob l)
                d0 i y1 _ H1 P1) as [d1 Hd1].
    destruct (onlooker_phase_nth beehive_population rng irng l (sol_prob l)
                d0 j y2 _ H2 P2) as [d2 Hd2].
    exists d1, d2. split; assumption.
  - intros rng' irng' d1 d2 Hr Hpass.
    apply passed_over_iff. apply passed_over_iff in Hpass.
    fold c in Hpass |- *. rewrite <- Hr.
    destruct (selected (0 + (c - 0) * rng' d1)
                (Fin (solution y2 / sum_solutions l))) eqn:Es;
      [|reflexivity].
    rewrite <- E2 in Es.
    pose proof (selected_monotone l y1 y2 _ Hl I1 I2 Hlt Es) as Hm.
    rewrite E1 in Hm. congruence.
  - intros Hw.
    destruct (selected_strictly l y1 y2 c Hl I1 I2 Hlt Hw)
      as (u & Hu & S1 & S2).
    rewrite E1 in S1. rewrite E2 in S2.
    exists u. split; [exact Hu|].
    intros rng' irng' d1 d2 Hr1 Hr2. split.
    + destruct (onlooker_step_cases beehive_population rng' irng' y1
                  (Fin (solution y1 / sum_solutions l)) d1)
        as [[Hf _]|[_ Ht]]; [|exact Ht].
      fold c in Hf. rewrite Hr1 in Hf. congruence.
    + apply passed_over_iff. fold c. now rewrite Hr2.
  - intros Hw rng' irng' d' Hu. split; apply passed_over_iff; fold c;
      apply top_weight_passed; auto.
    assert (solution y1 / sum_solutions l < solution y2 / sum_solutions l).
    { unfold Rdiv. apply Rmult_lt_compat_r;
        [now apply Rinv_0_lt_compat|lra]. }
    lra.
Qed.

(** C5 at work: the first selection phase of a hive of two bees, worth
    [400] and [40225]. *)
Lemma reselection_order_witness :
  exists y1 y2 w1 w2,
    solution y1 < solution y2 /\
    nth_error
      (sol_prob
         (fst (employed_phase ex_rng5 (bees (fst (start 4 ex_rng5 0)))
                 (snd (start 4 ex_rng5 0))))) 0 = Some (Fin w1) /\
    nth_error
      (sol_prob
         (fst (employed_phase ex_rng5 (bees (fst (start 4 ex_rng5 0)))
                 (snd (start 4 ex_rng5 0))))) 1 = Some (Fin w2) /\
    forall rng' irng' d1 d2,
      rng' d1 = rng' d2 ->
      onlooker_step 4 rng' irng' y1 (Fin w1) d1 = (y1, S d1) ->
      onlooker_step 4 rng' irng' y2 (Fin w2) d2 = (y2, S d2).
Proof.
  destruct ex_selection as (y1 & y2 & Hl & H1 & H2).
  assert (Hlt : solution y1 < solution y2) by lra.
  destruct (reselection_order 4 ex_rng5 ex_irng 0
              (fst (start 4 ex_rng5 0)) (snd (start 4 ex_rng5 0))
              0 1 y1 y2 eq_refl)
    as (w1 & w2 & _ & _ & P1 & P2 & _ & Hd & _).
  - rewrite Hl. reflexivity.
  - rewrite Hl. reflexivity.
  - exact Hlt.
  - exists y1, y2, w1, w2. repeat split; assumption.
Defined.

Lemma ex_fifty_sum : sum_solutions ex_fifty = 25.
Proof. unfold ex_fifty, ex_b9, ex_b16, sum_solutions. cbn. lra. Qed.

(** C5 refuted: among the script's fifty bees, 48 at the minimum, the bee
    worth [9] is better than the bee worth [16], and yet no draw of the
    range reselects it: both weights, [9/25] and [16/25], are above the top
    [1/50] of the range, and both bees are never reselected. *)
Lemma better_bee_not_more_likely :
  solution ex_b9 < solution ex_b16 /\
  nth_error ex_fifty 48 = Some ex_b9 /\
  nth_error ex_fifty 49 = Some ex_b16 /\
  exists p9 p16,
    nth_error (sol_prob ex_fifty) 48 = Some p9 /\
    nth_error (sol_prob ex_fifty) 49 = Some p16 /\
    ~ (exists rng irng d,
          0 <= rng d < 1 /\
          onlooker_step 100 rng irng ex_b9 p9 d <> (ex_b9, S d)) /\
    ~ (exists rng irng d,
          0 <= rng d < 1 /\
          onlooker_step 100 rng irng ex_b16 p16 d <> (ex_b16, S d)).
Proof.
  assert (Hc : 1 / (INR 100 / 2) = 1 / 50).
  { rewrite INR_IZR_INZ. cbn. lra. }
  split; [cbn; lra|]. split; [reflexivity|]. split; [reflexivity|].
  exists (Fin (9 / 25)), (Fin (16 / 25)).
  split.
  { rewrite (sol_prob_nth ex_fifty 48 ex_b9 eq_refl), ex_fifty_sum.
    unfold np_div. destruct (Req_dec_T 25 0); [lra|]. reflexivity. }
  split.
  { rewrite (sol_prob_nth ex_fifty 49 ex_b16 eq_refl), ex_fifty_sum.
    unfold np_div. destruct (Req_dec_T 25 0); [lra|]. reflexivity. }
  split; intros (rng & irng & d & Hu & Hn); apply Hn;
    apply passed_over_iff; rewrite Hc; apply top_weight_passed;
    auto; lra.
Qed.

End Reselection.
